(** * Tag / client membership core of [objects/tag.c]

    A shallow embedding of the tag class of the window manager: the tag
    registry [globalconf.tags], the per-tag client array, the single-edge
    operations [tag_client] / [untag_client], the batch method
    [luaA_tag_clients], the property accessors and
    [tags_get_current_or_first_selected_index].

    The C functions work on a [lua_State]; here that state is a record
    holding the C-side memory the tag class touches, the Lua stack of the
    running C function and the chronological list of calls made to the
    external collaborators (banning, workarea, EWMH, signal emission).
    A Lua error is a [longjmp]: it ends the call and keeps every write made
    before it, so computations live in a state monad whose failure case
    carries the state reached.

    Signal handlers are Lua code connected from outside; none is connected
    here, an emission is recorded in the trace and returns.  Array lengths
    and indices are C [int]s; the arrays never get near [INT_MAX], and the
    model uses unbounded integers for them.  The loops of
    [luaA_tag_clients] that are driven by [lua_next] or that shrink the
    array they walk take a fuel argument; the statements about them hold
    for every fuel above the lengths of the two lists involved. *)

From Stdlib Require Import ZArith.
From stdpp Require Import base tactics option list functions gmap strings
  pretty.

Local Open Scope Z_scope.

(** ** Values and memory *)

(** C pointers ([tag_t *], [client_t *], [screen_t *]) are addresses;
    pointer comparison is address comparison. *)
Definition ptr := N.

(** The Lua values the tag class meets.  A userdata carries the name of its
    class and the address of its C struct.  A table is represented by the
    list of its values in [lua_next] traversal order; tag.c never inspects a
    key, it only hands the key on the stack back to [lua_next], so a key is
    represented by its 1-based position in that order (which is the actual
    key for an array-like table such as [{c1, c2, c3}]). *)
#[warnings="-register-all"]
Inductive lua_value :=
| VNil
| VBoolean (b : bool)
| VNumber (n : Z)
| VString (s : string)
| VUserdata (class : string) (p : ptr)
| VTable (items : list lua_value).

(** [tag_t]: the fields of the struct used by tag.c.  [name] is a
    [char *], [None] being [NULL]; [clients] is the [client_array_t]. *)
Record tag_t := mk_tag {
  name : option string;
  selected : bool;
  activated : bool;
  clients : list ptr
}.

(** [p_clear(t, 1)] in [lunaL_tag_alloc]: a freshly allocated tag. *)
Definition tag_cleared : tag_t := mk_tag None false false [].

(** The part of [globalconf] read or written by tag.c. *)
Record globalconf_t := mk_globalconf {
  tags : list ptr;              (* globalconf.tags, a tag_array_t *)
  focus_client : option ptr;    (* globalconf.focus.client, None = NULL *)
  screens : list ptr            (* globalconf.screens *)
}.

(** The C-side memory: tag structs by address, the [screen] field of each
    client, the table of counted strong references kept by the object
    system, and [globalconf]. *)
Record world := mk_world {
  tag_mem : ptr → tag_t;
  client_screen : ptr → ptr;
  obj_refs : gmap ptr positive;
  globalconf : globalconf_t
}.

(** Calls to the external collaborators, in the order they are made.  A
    signal emission records the object, the signal name, the arguments and
    the memory as it is at the moment of emission, which is what a handler
    connected to the signal can observe. *)
Inductive event :=
| Call_banning_need_update
| Call_screen_update_workarea (s : ptr)
| Call_ewmh_client_update_desktop (c : ptr)
| Call_ewmh_update_net_numbers_of_desktop
| Call_ewmh_update_net_desktop_names
| Signal (obj : lua_value) (signame : string) (args : list lua_value)
         (seen : world).

(** The Lua stack has its top at the head of the list. *)
Record lua_State := mk_state {
  mem : world;
  stack : list lua_value;
  trace : list event
}.

Inductive lua_error :=
| TypeError (idx : Z) (expected : string)
| InvalidKey.

(** ** The computation monad *)

Inductive result (A : Type) :=
| Done (a : A) (L : lua_State)
| Raise (e : lua_error) (L : lua_State)
| OutOfFuel.
Arguments Done {A} a L.
Arguments Raise {A} e L.
Arguments OutOfFuel {A}.

Definition M (A : Type) : Type := lua_State → result A.

#[global] Instance M_ret : MRet M := λ A a L, Done a L.
#[global] Instance M_bind : MBind M := λ A B f m L,
  match m L with
  | Done a L' => f a L'
  | Raise e L' => Raise e L'
  | OutOfFuel => OutOfFuel
  end.

Definition raise {A} (e : lua_error) : M A := λ L, Raise e L.
Definition out_of_fuel {A} : M A := λ _, OutOfFuel.

Definition get_mem : M world := λ L, Done (mem L) L.
Definition set_mem (w : world) : M unit :=
  λ L, Done () (mk_state w (stack L) (trace L)).
Definition get_stack : M (list lua_value) := λ L, Done (stack L) L.
Definition set_stack (s : list lua_value) : M unit :=
  λ L, Done () (mk_state (mem L) s (trace L)).
Definition log (e : event) : M unit :=
  λ L, Done () (mk_state (mem L) (stack L) (trace L ++ [e])).

(** ** Field access *)

Definition with_selected (b : bool) (t : tag_t) : tag_t :=
  mk_tag (name t) b (activated t) (clients t).
Definition with_activated (b : bool) (t : tag_t) : tag_t :=
  mk_tag (name t) (selected t) b (clients t).
Definition with_clients (cs : list ptr) (t : tag_t) : tag_t :=
  mk_tag (name t) (selected t) (activated t) cs.

Definition with_tag_mem (m : ptr → tag_t) (w : world) : world :=
  mk_world m (client_screen w) (obj_refs w) (globalconf w).
Definition with_obj_refs (r : gmap ptr positive) (w : world) : world :=
  mk_world (tag_mem w) (client_screen w) r (globalconf w).
Definition with_tags (ts : list ptr) (w : world) : world :=
  mk_world (tag_mem w) (client_screen w) (obj_refs w)
    (mk_globalconf ts (focus_client (globalconf w)) (screens (globalconf w))).

(** [*tag] *)
Definition load_tag (t : ptr) : M tag_t :=
  w ← get_mem; mret (tag_mem w t).
(** [tag->field = ...] *)
Definition store_tag (t : ptr) (f : tag_t → tag_t) : M unit :=
  w ← get_mem; set_mem (with_tag_mem (alter f t (tag_mem w)) w).

(** ** Lua C API *)

(** The value at a stack index: positive indices count from the bottom
    (1 is the first argument), negative ones from the top (-1 is the top). *)
Definition index2value (s : list lua_value) (idx : Z) : option lua_value :=
  if 0 <? idx then rev s !! Z.to_nat (idx - 1)
  else if idx <? 0 then s !! Z.to_nat (- idx - 1)
  else None.

(** Position, counted from the top, of a valid stack index. *)
Definition index2pos (s : list lua_value) (idx : Z) : nat :=
  if 0 <? idx then (length s - Z.to_nat idx)%nat else Z.to_nat (- idx - 1).

Definition lua_gettop : M Z :=
  s ← get_stack; mret (Z.of_nat (length s)).
Definition lua_push (v : lua_value) : M unit :=
  s ← get_stack; set_stack (v :: s).
Definition lua_pushnil : M unit := lua_push VNil.
Definition lua_pushboolean (b : bool) : M unit := lua_push (VBoolean b).
Definition lua_pushvalue (idx : Z) : M unit :=
  s ← get_stack; lua_push (default VNil (index2value s idx)).
Definition lua_pop (n : nat) : M unit :=
  s ← get_stack; set_stack (drop n s).
(** [lua_insert]: moves the top element into the given index, shifting up
    the elements above that index. *)
Definition lua_insert (idx : Z) : M unit :=
  s ← get_stack;
  match s with
  | v :: s' =>
      let p := index2pos s idx in
      set_stack (take p s' ++ v :: drop p s')
  | [] => mret ()
  end.
Definition lua_createtable (narr nrec : Z) : M unit := lua_push (VTable []).

(** [lua_rawseti(L, idx, n)]: [t[n] = v] for the table [t] at [idx] and the
    value [v] on top of the stack, which is popped.  Writing at [n = #t + 1]
    extends the sequence; writing inside it replaces the element.  (A write
    that would leave a hole has no counterpart in the list representation;
    tag.c only fills a fresh table at 1, 2, 3, ...) *)
Definition table_rawseti (items : list lua_value) (n : Z) (v : lua_value)
  : list lua_value :=
  if n =? Z.of_nat (length items) + 1 then items ++ [v]
  else <[Z.to_nat (n - 1) := v]> items.

Definition lua_rawseti (idx : Z) (n : Z) : M unit :=
  s ← get_stack;
  match s with
  | v :: s' =>
      let p := index2pos s idx in
      match s !! p with
      | Some (VTable items) =>
          set_stack (drop 1 (<[p := VTable (table_rawseti items n v)]> s))
      | _ => raise (TypeError idx "table")
      end
  | [] => raise (TypeError idx "table")
  end.

(** [lua_next(L, idx)]: pops a key and pushes the key/value pair that
    follows it in the table at [idx]; returns 0 and pushes nothing when the
    traversal is over.  The key [nil] starts the traversal. *)
Definition lua_next (idx : Z) : M bool :=
  s ← get_stack;
  match s, index2value s idx with
  | k :: s', Some (VTable items) =>
      match k with
      | VNil =>
          match items with
          | v :: _ => set_stack (v :: VNumber 1 :: s');; mret true
          | [] => set_stack s';; mret false
          end
      | VNumber n =>
          if (1 <=? n) && (n <=? Z.of_nat (length items)) then
            match items !! Z.to_nat n with
            | Some v => set_stack (v :: VNumber (n + 1) :: s');; mret true
            | None => set_stack s';; mret false
            end
          else raise InvalidKey
      | _ => raise InvalidKey
      end
  | _, _ => raise (TypeError idx "table")
  end.

(** Modelled from the spec: [luaA_checkboolean] and [luaA_checktable]
    (common/lualib.h) are missing; an argument of the wrong type is an
    invalid-type error, which fails fast and aborts the call. *)
Definition luaA_checkboolean (idx : Z) : M bool :=
  s ← get_stack;
  match index2value s idx with
  | Some (VBoolean b) => mret b
  | _ => raise (TypeError idx "boolean")
  end.

Definition luaA_checktable (idx : Z) : M unit :=
  s ← get_stack;
  match index2value s idx with
  | Some (VTable _) => mret ()
  | _ => raise (TypeError idx "table")
  end.

(** ** The object system

    tag.c reaches the object system through [luaC_checkuclass],
    [luna_object_push], [luna_object_ref], [luna_object_unref] and
    [luna_object_emit_signal], which are declared outside the files at
    hand. *)

(** Modelled from the spec: [luaC_checkuclass(L, idx, class)] is missing; it
    returns the C struct of the userdata at [idx] when that value is an
    object of the named class and fails fast with a type error ("wrong kind
    of reference passed where a Tag/Client was expected") otherwise. *)
Definition luaC_checkuclass (idx : Z) (class : string) : M ptr :=
  s ← get_stack;
  match index2value s idx with
  | Some (VUserdata cl p) =>
      if String.eqb cl class then mret p else raise (TypeError idx class)
  | _ => raise (TypeError idx class)
  end.

(** Modelled from the spec: [luna_object_push(L, p)] is missing; it pushes
    the Lua object whose struct is at [p].  The class is the one of the C
    type of the pointer ([client_t *] or [tag_t *]). *)
Definition luna_object_push (class : string) (p : ptr) : M unit :=
  lua_push (VUserdata class p).

(** One more strong reference on the object at [p]. *)
Definition incref (p : ptr) (r : gmap ptr positive) : gmap ptr positive :=
  match r !! p with
  | Some n => <[p := Pos.succ n]> r
  | None => <[p := 1%positive]> r
  end.

(** One strong reference less; the entry disappears with the last one, and
    releasing a reference that is not held changes nothing. *)
Definition decref (p : ptr) (r : gmap ptr positive) : gmap ptr positive :=
  match r !! p with
  | Some 1%positive => delete p r
  | Some n => <[p := Pos.pred n]> r
  | None => r
  end.

(** Modelled from the spec: [luna_object_ref(L, idx)] is missing; it takes a
    strong reference on the object at [idx] ("the Registry now holds a
    strong reference", "acquire a membership-strength reference"), removes
    that stack slot and returns the struct's address ([NULL] for a value
    that is not an object).  That the slot is consumed shows at the call
    sites: the setter of [activated] and [drawin_set_visible] duplicate the
    object with [lua_pushvalue] before referencing it, and
    [luaA_tag_clients] pops one value, not two, after [tag_client]. *)
Definition luna_object_ref (idx : Z) : M ptr :=
  s ← get_stack;
  let pos := index2pos s idx in
  match s !! pos with
  | Some (VUserdata _ p) =>
      set_stack (delete pos s);;
      w ← get_mem;
      set_mem (with_obj_refs (incref p (obj_refs w)) w);;
      mret p
  | _ => set_stack (delete pos s);; mret 0%N
  end.

(** Modelled from the spec: [luna_object_unref(L, p)] is missing; it
    releases one strong reference on the object at [p]. *)
Definition luna_object_unref (p : ptr) : M unit :=
  w ← get_mem; set_mem (with_obj_refs (decref p (obj_refs w)) w).

(** Modelled from the spec: [luna_object_emit_signal(L, oud, name, nargs)]
    is missing ("eventBus.emit(objectRef, eventName, argCount)"); it emits
    [name] on the object at [oud] with the [nargs] values on top of the
    stack as arguments and pops these.  No handler is connected in this
    model: the emission is recorded together with the memory a handler
    would see. *)
Definition luna_object_emit_signal (oud : Z) (signame : string) (nargs : nat)
  : M unit :=
  s ← get_stack;
  w ← get_mem;
  log (Signal (default VNil (index2value s oud)) signame
         (rev (take nargs s)) w);;
  set_stack (drop nargs s).

(** ** External collaborators (banning.h, screen.h, ewmh.h)

    Modelled from the spec: these functions are missing; they are
    fire-and-forget calls into other subsystems, which do not touch the
    tag structs or the registry.  Each call is recorded in the trace. *)

Definition banning_need_update : M unit := log Call_banning_need_update.
Definition screen_update_workarea (s : ptr) : M unit :=
  log (Call_screen_update_workarea s).
Definition ewmh_client_update_desktop (c : ptr) : M unit :=
  log (Call_ewmh_client_update_desktop c).
Definition ewmh_update_net_numbers_of_desktop : M unit :=
  log Call_ewmh_update_net_numbers_of_desktop.
Definition ewmh_update_net_desktop_names : M unit :=
  log Call_ewmh_update_net_desktop_names.

(** ** Arrays ([client_array_t], [tag_array_t]) *)

(** [foreach (x, arr) body] over an array the body does not modify. *)
Fixpoint foreach {A} (arr : list A) (body : A → M unit) : M unit :=
  match arr with
  | [] => mret ()
  | x :: rest => body x;; foreach rest body
  end.

(** [for (i = 0; i < arr.len; i++) if (arr.tab[i] == p) ...]: the first
    index holding [p], scanning from index [i]. *)
Fixpoint array_scan (p : ptr) (tab : list ptr) (i : nat) : option nat :=
  match tab with
  | [] => None
  | x :: rest => if N.eqb x p then Some i else array_scan p rest (S i)
  end.

(** [client_array_append(&t->clients, c)] *)
Definition client_array_append (t c : ptr) : M unit :=
  store_tag t (λ tg, with_clients (clients tg ++ [c]) tg).
(** [client_array_take(&t->clients, i)] *)
Definition client_array_take (t : ptr) (i : nat) : M unit :=
  store_tag t (λ tg, with_clients (delete i (clients tg)) tg).
(** [tag_array_append(&globalconf.tags, t)] *)
Definition tag_array_append (t : ptr) : M unit :=
  w ← get_mem; set_mem (with_tags (tags (globalconf w) ++ [t]) w).
(** [tag_array_take(&globalconf.tags, i)] *)
Definition tag_array_take (i : nat) : M unit :=
  w ← get_mem; set_mem (with_tags (delete i (tags (globalconf w))) w).

(** ** tag.c *)

(** [tag_view]: view or unview a tag. *)
Definition tag_view (udx : Z) (view : bool) : M unit :=
  tag ← luaC_checkuclass udx "Tag";
  tg ← load_tag tag;
  if negb (Bool.eqb (selected tg) view) then
    store_tag tag (with_selected view);;
    banning_need_update;;
    w ← get_mem;
    foreach (screens (globalconf w)) screen_update_workarea;;
    luna_object_emit_signal udx ":property.selected" 0
  else mret ().

Definition tag_client_emit_signal (t c : ptr) (signame : string) : M unit :=
  luna_object_push "Client" c;;
  luna_object_push "Tag" t;;
  (* emit signal on client, with new tag as argument *)
  luna_object_emit_signal (-2) signame 1;;
  (* re push tag *)
  luna_object_push "Tag" t;;
  (* move tag before client *)
  lua_insert (-2);;
  luna_object_emit_signal (-2) signame 1;;
  (* Remove tag *)
  lua_pop 1.

(** [is_client_tagged]: linear scan of [t->clients]. *)
Fixpoint client_array_has (c : ptr) (tab : list ptr) : bool :=
  match tab with
  | [] => false
  | x :: rest => if N.eqb x c then true else client_array_has c rest
  end.

Definition is_client_tagged (c t : ptr) : M bool :=
  tg ← load_tag t; mret (client_array_has c (clients tg)).

(** [tag_client]: tag a client with the tag on top of the stack. *)
Definition tag_client (c : ptr) : M unit :=
  t ← luaC_checkuclass (-1) "Tag";
  luna_object_ref (-1);;
  (* don't tag twice *)
  tagged ← is_client_tagged c t;
  if (tagged : bool) then luna_object_unref t
  else
    client_array_append t c;;
    ewmh_client_update_desktop c;;
    banning_need_update;;
    w ← get_mem;
    screen_update_workarea (client_screen w c);;
    tag_client_emit_signal t c "tagged".

(** [untag_client]: untag a client with specified tag. *)
Definition untag_client (c t : ptr) : M unit :=
  tg ← load_tag t;
  match array_scan c (clients tg) 0 with
  | Some i =>
      client_array_take t i;;
      banning_need_update;;
      ewmh_client_update_desktop c;;
      w ← get_mem;
      screen_update_workarea (client_screen w c);;
      tag_client_emit_signal t c "untagged";;
      luna_object_unref t
  | None => mret ()
  end.

(** [tags_get_current_or_first_selected_index]: the two [foreach] loops
    over [globalconf.tags]; [i] is [tag_array_indexof] of the element the
    loop is at. *)
Fixpoint scan_current (m : ptr → tag_t) (c : ptr) (arr : list ptr) (i : Z)
  : option Z :=
  match arr with
  | [] => None
  | t :: rest =>
      if selected (m t) && client_array_has c (clients (m t)) then Some i
      else scan_current m c rest (i + 1)
  end.

Fixpoint scan_selected (m : ptr → tag_t) (arr : list ptr) (i : Z)
  : option Z :=
  match arr with
  | [] => None
  | t :: rest =>
      if selected (m t) then Some i else scan_selected m rest (i + 1)
  end.

Definition tags_get_current_or_first_selected_index (w : world) : Z :=
  let arr := tags (globalconf w) in
  let fallback :=
    match scan_selected (tag_mem w) arr 0 with
    | Some i => i
    | None => 0
    end in
  match focus_client (globalconf w) with
  | Some c =>
      match scan_current (tag_mem w) c arr 0 with
      | Some i => i
      | None => fallback
      end
  | None => fallback
  end.

(** [luaA_tag_clients], first pass, inner loop
    [while (lua_next(L, 2)) { ... }]: is [c] among the values of the
    table?  Every value met on the way is checked to be a client. *)
Fixpoint found_in_table (fuel : nat) (c : ptr) : M bool :=
  match fuel with
  | O => out_of_fuel
  | S fuel' =>
      more ← lua_next 2;
      if (more : bool) then
        tc ← luaC_checkuclass (-1) "Client";
        (* Pop the value from lua_next *)
        lua_pop 1;;
        if negb (N.eqb tc c) then found_in_table fuel' c
        else
          (* Pop the key from lua_next *)
          lua_pop 1;;
          mret true
      else mret false
  end.

(** First pass, [for (int j = 0; j < clients->len; j++)]: the array is
    read afresh at every iteration since [untag_client] shrinks it, and
    [j--] makes the loop look at the same index again. *)
Fixpoint untag_pass (fuel inner : nat) (tag : ptr) (j : Z) : M unit :=
  match fuel with
  | O => out_of_fuel
  | S fuel' =>
      tg ← load_tag tag;
      if j <? Z.of_nat (length (clients tg)) then
        let c := default 0%N (clients tg !! Z.to_nat j) in
        (* Only untag if we aren't going to add this tag again *)
        lua_pushnil;;
        found ← found_in_table inner c;
        j' ← (if (found : bool) then mret j
              else untag_client c tag;; mret (j - 1));
        untag_pass fuel' inner tag (j' + 1)
      else mret ()
  end.

(** Second pass, [while (lua_next(L, 2)) { ... tag_client(L, c); ... }]. *)
Fixpoint tag_pass (fuel : nat) : M unit :=
  match fuel with
  | O => out_of_fuel
  | S fuel' =>
      more ← lua_next 2;
      if (more : bool) then
        c ← luaC_checkuclass (-1) "Client";
        (* push tag on top of the stack *)
        lua_pushvalue 1;;
        tag_client c;;
        lua_pop 1;;
        tag_pass fuel'
      else mret ()
  end.

(** The result table: [for (i = 0; i < clients->len; i++)]. *)
Fixpoint push_clients (tab : list ptr) (i : Z) : M unit :=
  match tab with
  | [] => mret ()
  | c :: rest =>
      luna_object_push "Client" c;;
      lua_rawseti (-2) (i + 1);;
      push_clients rest (i + 1)
  end.

(** [luaA_tag_clients]: get or set the clients attached to this tag. *)
Definition luaA_tag_clients (fuel : nat) : M Z :=
  tag ← luaC_checkuclass 1 "Tag";
  top ← lua_gettop;
  (if top =? 2 then
     luaA_checktable 2;;
     untag_pass fuel fuel tag 0;;
     lua_pushnil;;
     tag_pass fuel
   else mret ());;
  tg ← load_tag tag;
  lua_createtable (Z.of_nat (length (clients tg))) 0;;
  push_clients (clients tg) 0;;
  mret 1.

(** [lunaL_getter(tag, selected)] *)
Definition lunaL_getter_tag_selected : M Z :=
  tag ← luaC_checkuclass 1 "Tag";
  tg ← load_tag tag;
  lua_pushboolean (selected tg);;
  mret 1.

(** [lunaL_setter(tag, selected)] *)
Definition lunaL_setter_tag_selected : M Z :=
  view ← luaA_checkboolean 2;
  tag_view 1 view;;
  mret 0.

(** [lunaL_getter(tag, activated)] *)
Definition lunaL_getter_tag_activated : M Z :=
  tag ← luaC_checkuclass 1 "Tag";
  tg ← load_tag tag;
  lua_pushboolean (selected tg);;
  mret 1.

(** [lunaL_setter(tag, activated)] *)
Definition lunaL_setter_tag_activated : M Z :=
  tag ← luaC_checkuclass 1 "Tag";
  act ← luaA_checkboolean 2;
  tg ← load_tag tag;
  if Bool.eqb act (activated tg) then mret 0
  else
    store_tag tag (with_activated act);;
    (if act then
       lua_pushvalue 1;;
       p ← luna_object_ref (-1);
       tag_array_append p
     else
       w ← get_mem;
       match array_scan tag (tags (globalconf w)) 0 with
       | Some i => tag_array_take i
       | None => mret ()
       end;;
       tg' ← load_tag tag;
       (if selected tg' then
          store_tag tag (with_selected false);;
          luna_object_emit_signal 1 ":property.selected" 0;;
          banning_need_update
        else mret ());;
       luna_object_unref tag);;
    ewmh_update_net_numbers_of_desktop;;
    ewmh_update_net_desktop_names;;
    luna_object_emit_signal 1 ":property.activated" 0;;
    mret 0.

(** ** The operations as their callers reach them *)

(** A C function called from Lua runs on a stack frame of its own holding
    its arguments (first argument at index 1) and leaves its results on
    top of it; the caller's stack is back when the call ends, by return or
    by error. *)
Definition lua_call (args : list lua_value) (f : M Z)
  : M (list lua_value) :=
  λ L,
    match f (mk_state (mem L) (rev args) (trace L)) with
    | Done n L' =>
        Done (rev (take (Z.to_nat n) (stack L')))
             (mk_state (mem L') (stack L) (trace L'))
    | Raise e L' => Raise e (mk_state (mem L') (stack L) (trace L'))
    | OutOfFuel => OutOfFuel
    end.

Definition tag_object (t : ptr) : lua_value := VUserdata "Tag" t.
Definition client_object (c : ptr) : lua_value := VUserdata "Client" c.

(** [t.activated = true] *)
Definition activate (t : ptr) : M (list lua_value) :=
  lua_call [tag_object t; VBoolean true] lunaL_setter_tag_activated.
(** [t.activated = false] *)
Definition deactivate (t : ptr) : M (list lua_value) :=
  lua_call [tag_object t; VBoolean false] lunaL_setter_tag_activated.
(** [t.selected = value] *)
Definition set_selected (t : ptr) (value : bool) : M (list lua_value) :=
  lua_call [tag_object t; VBoolean value] lunaL_setter_tag_selected.
(** [t.activated] *)
Definition get_activated (t : ptr) : M (list lua_value) :=
  lua_call [tag_object t] lunaL_getter_tag_activated.
(** [t:clients()] *)
Definition get_clients (t : ptr) : M (list lua_value) :=
  lua_call [tag_object t] (luaA_tag_clients 0).
(** [t:clients(R)]; the fuel covers both passes (see
    [set_clients_terminates]). *)
Definition set_clients (t : ptr) (R : list lua_value)
  : M (list lua_value) :=
  λ L,
    let fuel := S (length (clients (tag_mem (mem L) t)) + length R) in
    lua_call [tag_object t; VTable R] (luaA_tag_clients fuel) L.
(** The way the client class calls [tag_client]: push the tag, call. *)
Definition do_tag_client (t c : ptr) : M unit :=
  luna_object_push "Tag" t;; tag_client c.

(** The state a computation ends in. *)
Definition state_after {A} (r : result A) (L0 : lua_State) : lua_State :=
  match r with
  | Done _ L | Raise _ L => L
  | OutOfFuel => L0
  end.

Inductive op :=
| Activate (t : ptr)
| Deactivate (t : ptr)
| SetSelected (t : ptr) (value : bool)
| TagClient (t c : ptr)
| UntagClient (c t : ptr)
| SetClients (t : ptr) (R : list lua_value).

(** An operation as a computation; the two C-level calls return nothing. *)
Definition run (o : op) : M (list lua_value) :=
  match o with
  | Activate t => activate t
  | Deactivate t => deactivate t
  | SetSelected t v => set_selected t v
  | TagClient t c => do_tag_client t c;; mret []
  | UntagClient c t => untag_client c t;; mret []
  | SetClients t R => set_clients t R
  end.

Definition exec (o : op) (L : lua_State) : lua_State :=
  state_after (run o L) L.

Definition exec_all (os : list op) (L : lua_State) : lua_State :=
  foldl (λ L o, exec o L) L os.

(** A world with no tag activated, every tag struct as allocated. *)
Definition world0 (scr : ptr → ptr) (scrs : list ptr) : world :=
  mk_world (λ _, tag_cleared) scr ∅ (mk_globalconf [] None scrs).
Definition state0 (scr : ptr → ptr) (scrs : list ptr) : lua_State :=
  mk_state (world0 scr scrs) [] [].

(** ** Vocabulary of the statements *)

Definition tag_of (L : lua_State) (t : ptr) : tag_t := tag_mem (mem L) t.
Definition registry (L : lua_State) : list ptr := tags (globalconf (mem L)).

(** The client behind a Lua value, when it is a client object. *)
Definition as_client (v : lua_value) : option ptr :=
  match v with
  | VUserdata cl p => if String.eqb cl "Client" then Some p else None
  | _ => None
  end.

(** The clients that come before the first value that is not one. *)
Fixpoint valid_prefix (vs : list lua_value) : list ptr :=
  match vs with
  | [] => []
  | v :: rest =>
      match as_client v with
      | Some p => p :: valid_prefix rest
      | None => []
      end
  end.

Definition all_clients (vs : list lua_value) : Prop :=
  Forall (λ v, is_Some (as_client v)) vs.

(** What one [tag_client] makes of the client array, and a run of them. *)
Definition add_client (acc : list ptr) (r : ptr) : list ptr :=
  if client_array_has r acc then acc else acc ++ [r].
Definition add_all (cs rs : list ptr) : list ptr := foldl add_client cs rs.

(** The members of [rs] that are not in [seen], each once, in the order
    of their first occurrence in [rs]. *)
Fixpoint newcomers (seen rs : list ptr) : list ptr :=
  match rs with
  | [] => []
  | r :: rest =>
      if bool_decide (r ∈ seen) then newcomers seen rest
      else r :: newcomers (r :: seen) rest
  end.

(** Reconciliation as the specification words it: the members of the old
    list [C] that occur in the request keep their places relative to each
    other, the new ones follow in the order they are met in the request. *)
Definition reconciled (C rs : list ptr) : list ptr :=
  filter (λ c, c ∈ rs) C ++ newcomers C rs.

(** The memory after [tag_client] has added the edge [t]-[c]. *)
Definition tagged_world (t c : ptr) (w : world) : world :=
  with_tag_mem
    (alter (λ tg, with_clients (clients tg ++ [c]) tg) t (tag_mem w))
    (with_obj_refs (incref t (obj_refs w)) w).

(** The memory once [untag_client] has taken slot [i] out of [t->clients],
    and the memory it leaves after releasing the edge's reference. *)
Definition taken_world (t : ptr) (i : nat) (w : world) : world :=
  with_tag_mem
    (alter (λ tg, with_clients (delete i (clients tg)) tg) t (tag_mem w)) w.
Definition untagged_world (t : ptr) (i : nat) (w : world) : world :=
  with_obj_refs (decref t (obj_refs w)) (taken_world t i w).

(** The memory after a tag has been activated. *)
Definition activated_world (t : ptr) (w : world) : world :=
  with_tags (tags (globalconf w) ++ [t])
    (with_obj_refs (incref t (obj_refs w))
       (with_tag_mem (alter (with_activated true) t (tag_mem w)) w)).

(** [globalconf.tags] once the first slot holding [t] is taken out. *)
Definition registry_without (t : ptr) (ts : list ptr) : list ptr :=
  match array_scan t ts 0 with
  | Some i => delete i ts
  | None => ts
  end.

(** Deactivation: the memory once the tag is out of the registry, the
    memory once its selection has been forced off (what a handler of
    [property.selected] sees), and the memory once the registry's
    reference is released (what a handler of [property.activated] sees). *)
Definition removed_world (t : ptr) (w : world) : world :=
  with_tags (registry_without t (tags (globalconf w)))
    (with_tag_mem (alter (with_activated false) t (tag_mem w)) w).
Definition deselected_world (t : ptr) (w : world) : world :=
  with_tag_mem (alter (with_selected false) t (tag_mem w)) w.
Definition released_world (t : ptr) (w : world) : world :=
  with_obj_refs (decref t (obj_refs w)) w.

(** The key [lua_next] leaves on the stack after [pos] entries. *)
Definition key_at (pos : nat) : lua_value :=
  match pos with
  | O => VNil
  | S _ => VNumber (Z.of_nat pos)
  end.

(** [w'] differs from [w] at most in the client array of [t] and in the
    reference counts. *)
Definition only_clients_of (t : ptr) (w w' : world) : Prop :=
  globalconf w' = globalconf w ∧
  client_screen w' = client_screen w ∧
  ∀ p, tag_mem w' p =
       if decide (p = t) then with_clients (clients (tag_mem w' t)) (tag_mem w p)
       else tag_mem w p.

(** The invariants of the data model. *)
Definition I1 (L : lua_State) : Prop :=
  ∀ t, NoDup (clients (tag_of L t)).
Definition I2 (L : lua_State) : Prop :=
  NoDup (registry L) ∧ ∀ t, t ∈ registry L ↔ activated (tag_of L t) = true.
Definition I3 (L : lua_State) : Prop :=
  ∀ t, activated (tag_of L t) = false → selected (tag_of L t) = false.

(** [i] is the index of the first element of [arr] that satisfies [P]. *)
Definition first_index (P : ptr → Prop) (arr : list ptr) (i : Z) : Prop :=
  0 ≤ i ∧
  ∃ t, arr !! Z.to_nat i = Some t ∧ P t ∧
       ∀ j t', (j < Z.to_nat i)%nat → arr !! j = Some t' → ¬ P t'.

(** The operations the idempotence claim is about. *)
Definition repeatable (o : op) : Prop :=
  match o with
  | Activate _ | Deactivate _ | TagClient _ _ | UntagClient _ _ => True
  | SetSelected _ _ | SetClients _ _ => False
  end.

(** A state used to instantiate the statements: tag 1 activated and
    selected, with clients 11 and 12, every client on screen 5. *)
Definition demo_state : lua_State :=
  exec_all [Activate 1%N; TagClient 1%N 11%N; TagClient 1%N 12%N;
            SetSelected 1%N true]
    (state0 (λ _, 5%N) [5%N; 6%N]).

(** The same memory with registry [2; 1] (tag 2 is not selected) and a
    given focused client. *)
Definition demo_focus (c : option ptr) : world :=
  mk_world (tag_mem (mem demo_state)) (client_screen (mem demo_state))
    (obj_refs (mem demo_state)) (mk_globalconf [2%N; 1%N] c [5%N]).

(** ** Vocabulary of the further properties *)

(** The number of strong references held on the object at [p]. *)
Definition refcount (w : world) (p : ptr) : nat :=
  match obj_refs w !! p with
  | Some n => Pos.to_nat n
  | None => O
  end.

(** Memory and trace, the two parts of the state that outlive a call. *)
Definition outcome : Type := world * list event.

(** What [tag_client(t, c)] makes of memory and trace, and what
    [untag_client(c, t)] makes of them. *)
Definition tag_step (t : ptr) (s : outcome) (c : ptr) : outcome :=
  if client_array_has c (clients (tag_mem s.1 t)) then s
  else (tagged_world t c s.1,
        s.2 ++ [Call_ewmh_client_update_desktop c; Call_banning_need_update;
                Call_screen_update_workarea (client_screen s.1 c);
                Signal (client_object c) "tagged" [tag_object t]
                  (tagged_world t c s.1);
                Signal (tag_object t) "tagged" [client_object c]
                  (tagged_world t c s.1)]).

Definition untag_step (t : ptr) (s : outcome) (c : ptr) : outcome :=
  match array_scan c (clients (tag_mem s.1 t)) 0 with
  | Some i =>
      (untagged_world t i s.1,
       s.2 ++ [Call_banning_need_update; Call_ewmh_client_update_desktop c;
               Call_screen_update_workarea (client_screen s.1 c);
               Signal (client_object c) "untagged" [tag_object t]
                 (taken_world t i s.1);
               Signal (tag_object t) "untagged" [client_object c]
                 (taken_world t i s.1)])
  | None => s
  end.

(** The signals of a trace, without the memory they were emitted in. *)
Definition signal_log (tr : list event)
  : list (lua_value * string * list lua_value) :=
  omap (λ e, match e with
             | Signal o n a _ => Some (o, n, a)
             | _ => None
             end) tr.

(** The two signals of one edge change. *)
Definition edge_signals (signame : string) (t c : ptr)
  : list (lua_value * string * list lua_value) :=
  [(client_object c, signame, [tag_object t]);
   (tag_object t, signame, [client_object c])].

#[global] Instance all_clients_dec vs : Decision (all_clients vs).
Proof. unfold all_clients. apply _. Defined.

(** Memory and trace after [t:clients(R)], whether the call returns or
    ends in a type error: the untag steps of the first pass for the old
    members the request does not list, then the tag steps of the second
    pass; with a value that is not a client in the request, only the tag
    steps that come before it, and those only when the first pass got
    through. *)
Definition set_clients_outcome (t : ptr) (R : list lua_value) (s : outcome)
  : outcome :=
  let pre := valid_prefix R in
  let C := clients (tag_mem s.1 t) in
  if decide (all_clients R) then
    foldl (tag_step t) (foldl (untag_step t) s (filter (λ c, c ∉ pre) C)) pre
  else if decide (Forall (λ c, c ∈ pre) C) then foldl (tag_step t) s pre
  else s.

(** Every tag holds one strong reference per member client and one more
    while it sits in the registry. *)
Definition balanced (w : world) : Prop :=
  ∀ p, refcount w p =
       (length (clients (tag_mem w p)) +
        (if bool_decide (p ∈ tags (globalconf w)) then 1 else 0))%nat.

(** [t.selected] *)
Definition get_selected (t : ptr) : M (list lua_value) :=
  lua_call [tag_object t] lunaL_getter_tag_selected.

(** ** The [name] property *)

Definition with_name (o : option string) (t : tag_t) : tag_t :=
  mk_tag o (selected t) (activated t) (clients t).





Section name_setter.
(** [a_strdup] (common/util.h) is not among the sources at hand: the
    copy it returns, [None] being [NULL], is a parameter of the setter. *)
Variable a_strdup : string → option string.

End name_setter.


(** ** Collection *)

(** [lunaL_tag_gc]: [client_array_wipe(&tag->clients)] empties the array
    without touching the clients or any reference; [p_delete(&tag->name)]
    frees the name. *)
Definition lunaL_tag_gc (p : ptr) : M unit :=
  store_tag p (with_clients []);;
  store_tag p (with_name None).

(** ** Running the model *)

Ltac munfold :=
  cbv delta [luaC_checkuclass luaA_checkboolean luaA_checktable
    luna_object_push luna_object_ref luna_object_unref
    luna_object_emit_signal banning_need_update screen_update_workarea
    ewmh_client_update_desktop ewmh_update_net_numbers_of_desktop
    ewmh_update_net_desktop_names client_array_append client_array_take
    tag_array_append tag_array_take tag_client_emit_signal is_client_tagged
    load_tag store_tag lua_gettop lua_push lua_pushnil lua_pushboolean
    lua_pushvalue lua_pop lua_insert lua_createtable lua_rawseti
    get_mem set_mem get_stack set_stack log raise out_of_fuel
    mbind M_bind mret M_ret] beta.
Ltac mrun := repeat (progress (munfold; simpl)).

(** ** Arrays *)

Lemma client_array_has_spec c tab :
  client_array_has c tab = bool_decide (c ∈ tab).
Proof.
  induction tab as [|x tab IH]; simpl; [done|].
  destruct (N.eqb_spec x c) as [->|Hne].
  - rewrite bool_decide_eq_true_2; [done | left].
  - rewrite IH. apply bool_decide_ext. rewrite elem_of_cons.
    intuition congruence.
Qed.

Lemma client_array_has_true c tab : client_array_has c tab = true ↔ c ∈ tab.
Proof. rewrite client_array_has_spec. apply bool_decide_eq_true. Qed.

Lemma client_array_has_false c tab :
  client_array_has c tab = false ↔ c ∉ tab.
Proof. rewrite client_array_has_spec. apply bool_decide_eq_false. Qed.

Lemma array_scan_None p tab i : p ∉ tab → array_scan p tab i = None.
Proof.
  revert i. induction tab as [|x tab IH]; intros i Hp; simpl; [done|].
  apply not_elem_of_cons in Hp as [Hne Hp].
  destruct (N.eqb_spec x p); [congruence | by apply IH].
Qed.

Lemma array_scan_middle p l1 l2 i :
  p ∉ l1 → array_scan p (l1 ++ p :: l2) i = Some (i + length l1)%nat.
Proof.
  revert i. induction l1 as [|x l1 IH]; intros i Hp; simpl.
  - rewrite N.eqb_refl. f_equal. lia.
  - apply not_elem_of_cons in Hp as [Hne Hp].
    destruct (N.eqb_spec x p); [congruence|].
    rewrite IH by done. f_equal. lia.
Qed.

Lemma array_scan_inv p tab i k :
  array_scan p tab i = Some k →
  ∃ l1 l2, tab = l1 ++ p :: l2 ∧ (p ∉ l1) ∧ k = (i + length l1)%nat.
Proof.
  revert i. induction tab as [|x tab IH]; intros i; simpl; [done|].
  destruct (N.eqb_spec x p) as [->|Hne].
  - intros [= <-]. exists [], tab. split_and!; [done | apply not_elem_of_nil |].
    simpl. lia.
  - intros (l1 & l2 & -> & Hl1 & ->)%IH. exists (x :: l1), l2.
    split_and!; [done | | simpl; lia].
    apply not_elem_of_cons. split; [congruence | done].
Qed.

Lemma array_scan_is_Some p tab i : p ∈ tab → is_Some (array_scan p tab i).
Proof.
  intros (l1 & l2 & -> & Hl1)%list_elem_of_split_l.
  rewrite array_scan_middle by done. eauto.
Qed.

(** ** Single-edge operations: what each call does *)

Lemma tag_client_new c t w s tr :
  client_array_has c (clients (tag_mem w t)) = false →
  tag_client c (mk_state w (tag_object t :: s) tr) =
    Done () (mk_state (tagged_world t c w) s
      (tr ++ [Call_ewmh_client_update_desktop c; Call_banning_need_update;
              Call_screen_update_workarea (client_screen w c);
              Signal (client_object c) "tagged" [tag_object t]
                (tagged_world t c w);
              Signal (tag_object t) "tagged" [client_object c]
                (tagged_world t c w)])).
Proof.
  intros H. unfold tag_client. mrun. rewrite H. mrun.
  rewrite <- !app_assoc. reflexivity.
Qed.

Lemma decref_incref p r : decref p (incref p r) = r.
Proof.
  unfold incref, decref. destruct (r !! p) as [n|] eqn:Hp.
  - rewrite lookup_insert_eq.
    destruct (Pos.succ n) eqn:Hs; try (by destruct n).
    all: rewrite <- Hs, Pos.pred_succ, insert_insert_eq; by apply insert_id.
  - rewrite lookup_insert_eq. by apply delete_insert_id.
Qed.

Lemma tag_client_again c t w s tr :
  client_array_has c (clients (tag_mem w t)) = true →
  tag_client c (mk_state w (tag_object t :: s) tr) = Done () (mk_state w s tr).
Proof.
  intros H. unfold tag_client. mrun. rewrite H. mrun.
  unfold with_obj_refs. simpl. rewrite decref_incref. by destruct w.
Qed.

Lemma untag_client_present c t i w s tr :
  array_scan c (clients (tag_mem w t)) 0 = Some i →
  untag_client c t (mk_state w s tr) =
    Done () (mk_state (untagged_world t i w) s
      (tr ++ [Call_banning_need_update; Call_ewmh_client_update_desktop c;
              Call_screen_update_workarea (client_screen w c);
              Signal (client_object c) "untagged" [tag_object t]
                (taken_world t i w);
              Signal (tag_object t) "untagged" [client_object c]
                (taken_world t i w)])).
Proof.
  intros H. unfold untag_client. mrun. rewrite H. mrun.
  rewrite <- !app_assoc. reflexivity.
Qed.

Lemma untag_client_absent c t L :
  array_scan c (clients (tag_of L t)) 0 = None →
  untag_client c t L = Done () L.
Proof.
  intros H. unfold untag_client, tag_of in *. mrun. by rewrite H.
Qed.

(** ** Table traversal *)

Lemma as_client_Some v p : as_client v = Some p → v = client_object p.
Proof.
  destruct v as [| | | |cl q|]; simpl; try done.
  destruct (String.eqb_spec cl "Client") as [->|]; [|done].
  by intros [= ->].
Qed.

Lemma as_client_object p : as_client (client_object p) = Some p.
Proof. done. Qed.

Lemma valid_prefix_objects rs : valid_prefix (client_object <$> rs) = rs.
Proof. induction rs as [|r rs IH]; [done|]. rewrite fmap_cons. simpl. by f_equal. Qed.

Lemma all_clients_objects rs : all_clients (client_object <$> rs).
Proof. apply Forall_fmap, Forall_true. intros r. by exists r. Qed.

Lemma all_clients_inv vs :
  all_clients vs → vs = client_object <$> valid_prefix vs.
Proof.
  induction 1 as [|v vs [p Hp] _ IH]; simpl; [done|].
  rewrite Hp. simpl. f_equal; [by apply as_client_Some | exact IH].
Qed.

Lemma luaC_checkuclass_client v s w tr :
  luaC_checkuclass (-1) "Client" (mk_state w (v :: s) tr) =
    match as_client v with
    | Some p => Done p (mk_state w (v :: s) tr)
    | None => Raise (TypeError (-1) "Client") (mk_state w (v :: s) tr)
    end.
Proof.
  mrun. destruct v as [| | | |cl q|]; simpl; try done.
  by destruct (String.eqb cl "Client").
Qed.

Lemma lookup_drop_head {A} (l : list A) pos x rest :
  drop pos l = x :: rest → l !! pos = Some x ∧ drop (S pos) l = rest.
Proof.
  intros H. split.
  - rewrite <- (Nat.add_0_r pos), <- lookup_drop, H. done.
  - by rewrite <- (Nat.add_1_l pos), Nat.add_comm, <- drop_drop, H.
Qed.

Lemma key_at_S pos : key_at (S pos) = VNumber (Z.of_nat pos + 1).
Proof. unfold key_at. f_equal. lia. Qed.

Lemma lua_next_at pos items x w tr :
  (pos ≤ length items)%nat →
  lua_next 2 (mk_state w [key_at pos; VTable items; x] tr) =
    match items !! pos with
    | Some v => Done true (mk_state w [v; key_at (S pos); VTable items; x] tr)
    | None => Done false (mk_state w [VTable items; x] tr)
    end.
Proof.
  intros Hpos. destruct pos as [|n].
  - unfold lua_next. mrun. by destruct items.
  - rewrite (key_at_S (S n)). unfold key_at.
    remember (Z.of_nat (S n)) as k eqn:Hk.
    unfold lua_next. mrun.
    replace ((1 <=? k) && (k <=? Z.of_nat (length items))) with true
      by (symmetry; apply andb_true_intro; split; apply Z.leb_le; lia).
    replace (Z.to_nat k) with (S n) by lia.
    by destruct (items !! S n).
Qed.

Lemma found_in_table_spec c items x w tr suffix :
  ∀ pos fuel,
    drop pos items = suffix → (pos ≤ length items)%nat →
    (length suffix < fuel)%nat →
    match found_in_table fuel c (mk_state w [key_at pos; VTable items; x] tr)
    with
    | Done b L' =>
        L' = mk_state w [VTable items; x] tr ∧
        b = bool_decide (c ∈ valid_prefix suffix) ∧
        (b = false → all_clients suffix)
    | Raise e L' =>
        e = TypeError (-1) "Client" ∧ mem L' = w ∧ trace L' = tr ∧
        ¬ all_clients suffix ∧ c ∉ valid_prefix suffix
    | OutOfFuel => False
    end.
Proof.
  induction suffix as [|v rest IH]; intros pos fuel Hdrop Hpos Hfuel;
    (destruct fuel as [|fuel]; [simpl in Hfuel; lia|]).
  - assert (items !! pos = None) as Hnone.
    { apply lookup_ge_None. apply (f_equal length) in Hdrop.
      rewrite length_drop in Hdrop. simpl in Hdrop. lia. }
    simpl found_in_table. cbv delta [mbind M_bind] beta.
    rewrite lua_next_at, Hnone by done. simpl.
    split_and!; [done | done | intros _; constructor].
  - apply lookup_drop_head in Hdrop as [Hv Hrest].
    assert (S pos ≤ length items)%nat by (apply lookup_lt_Some in Hv; lia).
    simpl found_in_table. cbv delta [mbind M_bind] beta.
    rewrite lua_next_at, Hv by done. cbv beta iota.
    rewrite luaC_checkuclass_client.
    destruct (as_client v) as [tc|] eqn:Hc.
    + mrun. destruct (N.eqb_spec tc c) as [->|Hne]; simpl.
      * split_and!; [done | | done]. rewrite Hc.
        symmetry. apply bool_decide_eq_true. left.
      * specialize (IH (S pos) fuel Hrest H ltac:(simpl in Hfuel; lia)).
        destruct (found_in_table fuel c _) as [b L'|e L'|]; [| |done].
        -- destruct IH as (-> & -> & Hall). split_and!; [done | |].
           ++ rewrite Hc. apply bool_decide_ext. rewrite elem_of_cons.
              intuition congruence.
           ++ intros Hb. constructor; [by rewrite Hc | by apply Hall].
        -- destruct IH as (-> & Hm & Ht & Hall & Hnot). split_and!; try done.
           ++ intros Hall'. apply Hall. by inversion Hall'.
           ++ rewrite Hc. apply not_elem_of_cons. split; [congruence | done].
    + simpl. split_and!; try done.
      * intros Hall. inversion Hall as [|?? [? Hs] ?]; congruence.
      * rewrite Hc. apply not_elem_of_nil.
Qed.

(** ** Frames *)

Section frames.
Context (t : ptr).

Lemma with_clients_clients tg : with_clients (clients tg) tg = tg.
Proof. by destruct tg. Qed.

Lemma with_clients_twice cs cs' tg :
  with_clients cs (with_clients cs' tg) = with_clients cs tg.
Proof. done. Qed.

Lemma only_clients_of_refl w : only_clients_of t w w.
Proof.
  split_and!; [done..|]. intros p. case_decide as Hp; [|done].
  subst. by rewrite with_clients_clients.
Qed.

Lemma only_clients_of_trans w1 w2 w3 :
  only_clients_of t w1 w2 → only_clients_of t w2 w3 → only_clients_of t w1 w3.
Proof.
  intros (Hg1 & Hs1 & H1) (Hg2 & Hs2 & H2).
  split_and!; [congruence..|]. intros p.
  rewrite (H2 p), (H1 p). by case_decide.
Qed.

Lemma only_clients_of_alter f r w :
  only_clients_of t w
    (with_tag_mem (alter (λ tg, with_clients (f tg) tg) t (tag_mem w))
       (with_obj_refs r w)).
Proof.
  split_and!; [done..|]. intros p. simpl. case_decide as Hp.
  - subst. by rewrite !fn_lookup_alter.
  - by rewrite fn_lookup_alter_ne.
Qed.

Lemma only_clients_of_tagged c w : only_clients_of t w (tagged_world t c w).
Proof. apply (only_clients_of_alter (λ tg, clients tg ++ [c])). Qed.

Lemma only_clients_of_untagged i w :
  only_clients_of t w (untagged_world t i w).
Proof.
  apply (only_clients_of_alter (λ tg, delete i (clients tg))
           (decref t (obj_refs w))).
Qed.

Lemma clients_tagged_world c w :
  clients (tag_mem (tagged_world t c w) t) = clients (tag_mem w t) ++ [c].
Proof. simpl. by rewrite fn_lookup_alter. Qed.

Lemma clients_untagged_world i w :
  clients (tag_mem (untagged_world t i w) t) = delete i (clients (tag_mem w t)).
Proof. simpl. by rewrite fn_lookup_alter. Qed.

End frames.

(** ** The two passes of [luaA_tag_clients]

    Both passes run on the stack [table; tag] of a call with two
    arguments; [w0] is the memory at the start of the call. *)

Section passes.
Context (t : ptr) (items : list lua_value) (w0 : world).

(** First pass. *)
Lemma untag_pass_spec rest :
  let pre := valid_prefix items in
  ∀ kept w tr fuel inner,
    clients (tag_mem w t) = kept ++ rest →
    Forall (λ c, c ∈ pre) kept →
    only_clients_of t w0 w →
    (length rest < fuel)%nat → (length items < inner)%nat →
    match untag_pass fuel inner t (Z.of_nat (length kept))
            (mk_state w [VTable items; tag_object t] tr)
    with
    | Done _ L' =>
        stack L' = [VTable items; tag_object t] ∧
        clients (tag_of L' t) = kept ++ filter (λ c, c ∈ pre) rest ∧
        only_clients_of t w0 (mem L') ∧
        (all_clients items ∨ Forall (λ c, c ∈ pre) rest)
    | Raise e L' =>
        e = TypeError (-1) "Client" ∧ mem L' = w ∧ trace L' = tr ∧
        ¬ all_clients items ∧ ¬ Forall (λ c, c ∈ pre) rest
    | OutOfFuel => False
    end.
Proof.
  intros pre. induction rest as [|c rest IH];
    intros kept w tr fuel inner Hcl Hkept Hfr Hfuel Hinner;
    (destruct fuel as [|fuel]; [simpl in Hfuel; lia|]).
  - simpl untag_pass. cbv delta [mbind M_bind load_tag get_mem mret M_ret] beta.
    rewrite app_nil_r in Hcl. simpl. rewrite Hcl, Z.ltb_irrefl.
    split_and!; [done | by rewrite app_nil_r | done | right; constructor].
  - simpl untag_pass. cbv delta [mbind M_bind load_tag get_mem mret M_ret] beta.
    simpl mem. cbv beta iota. rewrite Hcl.
    replace (Z.of_nat (length kept) <? Z.of_nat (length (kept ++ c :: rest)))
      with true by (symmetry; apply Z.ltb_lt; rewrite length_app; simpl; lia).
    rewrite Nat2Z.id, list_lookup_middle by done. simpl default.
    change (lua_pushnil (mk_state w [VTable items; tag_object t] tr))
      with (Done () (mk_state w [key_at 0; VTable items; tag_object t] tr)).
    cbv beta iota.
    pose proof (found_in_table_spec c items (tag_object t) w tr items 0 inner
                  eq_refl (Nat.le_0_l _) Hinner) as Hf.
    destruct (found_in_table inner c _) as [b L1|e L1|]; [| |done].
    + destruct Hf as (-> & Hb & Hall). destruct b.
      * (* found: keep it and move on *)
        symmetry in Hb. apply bool_decide_eq_true in Hb.
        replace (Z.of_nat (length kept) + 1)
          with (Z.of_nat (length (kept ++ [c])))
          by (rewrite length_app; simpl; lia).
        specialize (IH (kept ++ [c]) w tr fuel inner).
        rewrite <- app_assoc in IH.
        specialize (IH Hcl ltac:(apply Forall_app; split; [done | by constructor])
                      Hfr ltac:(simpl in Hfuel; lia) Hinner).
        destruct (untag_pass fuel inner t _ _) as [[] L'|e L'|]; [| |done].
        -- destruct IH as (Hs & Hc & Hfr' & Hor). split_and!; [done | | done |].
           ++ rewrite Hc, <- app_assoc, filter_cons_True by done. done.
           ++ destruct Hor as [?|?]; [by left | right; by constructor].
        -- destruct IH as (-> & Hm & Ht & Hnall & Hnot).
           split_and!; try done. intros Hall'. apply Hnot. by inversion Hall'.
      * (* not requested: untag, same index again *)
        symmetry in Hb. apply bool_decide_eq_false in Hb.
        assert (c ∉ kept) as Hck.
        { intros Hin. apply Hb. by eapply (proj1 (Forall_forall _ _) Hkept). }
        rewrite (untag_client_present c t (length kept))
          by (rewrite Hcl, array_scan_middle by done; done).
        cbv beta iota.
        replace (Z.of_nat (length kept) - 1 + 1) with (Z.of_nat (length kept))
          by lia.
        match goal with |- context [mk_state (untagged_world ?t ?i ?w) ?s ?tr']
          => specialize (IH kept (untagged_world t i w) tr' fuel inner) end.
        rewrite clients_untagged_world, Hcl, delete_middle in IH.
        specialize (IH eq_refl Hkept
                      ltac:(eapply only_clients_of_trans;
                              [done | apply only_clients_of_untagged])
                      ltac:(simpl in Hfuel; lia) Hinner).
        destruct (untag_pass fuel inner t _ _) as [[] L'|e L'|]; [| |done].
        -- destruct IH as (Hs & Hc & Hfr' & Hor). split_and!; [done | | done |].
           ++ by rewrite Hc, filter_cons_False by done.
           ++ left. by apply Hall.
        -- destruct IH as (_ & _ & _ & Hnall & _). destruct Hnall. by apply Hall.
    + destruct Hf as (-> & Hm & Ht & Hnall & Hnot). split_and!; try done.
      intros Hall'. apply Hnot. by inversion Hall'.
Qed.

(** Second pass. *)
Lemma tag_pass_spec suffix :
  ∀ pos w tr fuel,
    drop pos items = suffix → (pos ≤ length items)%nat →
    only_clients_of t w0 w →
    (length suffix < fuel)%nat →
    match tag_pass fuel (mk_state w [key_at pos; VTable items; tag_object t] tr)
    with
    | Done _ L' =>
        stack L' = [VTable items; tag_object t] ∧ all_clients suffix ∧
        clients (tag_of L' t) =
          add_all (clients (tag_mem w t)) (valid_prefix suffix) ∧
        only_clients_of t w0 (mem L')
    | Raise e L' =>
        e = TypeError (-1) "Client" ∧ ¬ all_clients suffix ∧
        clients (tag_of L' t) =
          add_all (clients (tag_mem w t)) (valid_prefix suffix) ∧
        only_clients_of t w0 (mem L')
    | OutOfFuel => False
    end.
Proof.
  induction suffix as [|v rest IH]; intros pos w tr fuel Hdrop Hpos Hfr Hfuel;
    (destruct fuel as [|fuel]; [simpl in Hfuel; lia|]).
  - assert (items !! pos = None) as Hnone.
    { apply lookup_ge_None. apply (f_equal length) in Hdrop.
      rewrite length_drop in Hdrop. simpl in Hdrop. lia. }
    simpl tag_pass. cbv delta [mbind M_bind] beta.
    rewrite lua_next_at, Hnone by done. simpl.
    split_and!; [done | constructor | done | done].
  - apply lookup_drop_head in Hdrop as [Hv Hrest].
    assert (S pos ≤ length items)%nat by (apply lookup_lt_Some in Hv; lia).
    simpl tag_pass. cbv delta [mbind M_bind] beta.
    rewrite lua_next_at, Hv by done. cbv beta iota.
    rewrite luaC_checkuclass_client.
    destruct (as_client v) as [c|] eqn:Hc.
    + cbv beta iota.
      change (lua_pushvalue 1
                (mk_state w [v; key_at (S pos); VTable items; tag_object t] tr))
        with (Done () (mk_state w
                [tag_object t; v; key_at (S pos); VTable items; tag_object t]
                tr)).
      cbv beta iota.
      destruct (client_array_has c (clients (tag_mem w t))) eqn:Hhas.
      * rewrite tag_client_again by done. cbv beta iota.
        change (lua_pop 1 (mk_state w [v; key_at (S pos); VTable items;
                                       tag_object t] tr))
          with (Done () (mk_state w [key_at (S pos); VTable items;
                                     tag_object t] tr)).
        cbv beta iota.
        specialize (IH (S pos) w tr fuel Hrest H Hfr
                      ltac:(simpl in Hfuel; lia)).
        simpl valid_prefix. rewrite Hc.
        assert (add_all (clients (tag_mem w t)) (c :: valid_prefix rest) =
                add_all (clients (tag_mem w t)) (valid_prefix rest)) as ->.
        { unfold add_all. simpl. unfold add_client at 2. by rewrite Hhas. }
        destruct (tag_pass fuel _) as [[] L'|e L'|]; [| |done].
        -- destruct IH as (? & ? & ? & ?). split_and!; try done.
           constructor; [by rewrite Hc | done].
        -- destruct IH as (? & Hn & ? & ?). split_and!; try done.
           intros Hall. apply Hn. by inversion Hall.
      * rewrite tag_client_new by done. cbv beta iota.
        match goal with |- context [lua_pop 1 (mk_state ?w' ?s ?tr')] =>
          change (lua_pop 1 (mk_state w' s tr'))
            with (Done () (mk_state w' (drop 1 s) tr'));
          specialize (IH (S pos) w' tr' fuel Hrest H)
        end.
        cbv beta iota. simpl drop.
        specialize (IH ltac:(eapply only_clients_of_trans;
                               [done | apply only_clients_of_tagged])
                      ltac:(simpl in Hfuel; lia)).
        rewrite clients_tagged_world in IH.
        simpl valid_prefix. rewrite Hc.
        assert (add_all (clients (tag_mem w t)) (c :: valid_prefix rest) =
                add_all (clients (tag_mem w t) ++ [c]) (valid_prefix rest))
          as ->.
        { unfold add_all. simpl. unfold add_client at 2. by rewrite Hhas. }
        destruct (tag_pass fuel _) as [[] L'|e L'|]; [| |done].
        -- destruct IH as (? & ? & ? & ?). split_and!; try done.
           constructor; [by rewrite Hc | done].
        -- destruct IH as (? & Hn & ? & ?). split_and!; try done.
           intros Hall. apply Hn. by inversion Hall.
    + simpl. rewrite Hc. split_and!; try done.
      intros Hall. inversion Hall as [|?? [? Hs] ?]; congruence.
Qed.

End passes.

(** ** The result table *)

Lemma push_clients_spec tab :
  ∀ acc s w tr,
    push_clients tab (Z.of_nat (length acc)) (mk_state w (VTable acc :: s) tr) =
      Done () (mk_state w (VTable (acc ++ (client_object <$> tab)) :: s) tr).
Proof.
  induction tab as [|c tab IH]; intros acc s w tr.
  - simpl. by rewrite app_nil_r.
  - simpl push_clients. mrun. unfold table_rawseti.
    rewrite Z.eqb_refl.
    replace (Z.of_nat (length acc) + 1) with (Z.of_nat (length (acc ++ [VUserdata "Client" c])))
      by (rewrite length_app; simpl; lia).
    rewrite IH, <- app_assoc. done.
Qed.

(** ** Reconciliation, list level *)

Lemma newcomers_agree s1 s2 rs :
  (∀ x, x ∈ rs → x ∈ s1 ↔ x ∈ s2) → newcomers s1 rs = newcomers s2 rs.
Proof.
  revert s1 s2. induction rs as [|r rs IH]; intros s1 s2 H; simpl; [done|].
  rewrite (bool_decide_ext (r ∈ s1) (r ∈ s2)) by (apply H; left).
  case_bool_decide.
  - apply IH. intros x Hx. apply H. by right.
  - f_equal. apply IH. intros x Hx. rewrite !elem_of_cons.
    rewrite (H x) by (by right). done.
Qed.

Lemma elem_of_newcomers x seen rs :
  x ∈ newcomers seen rs ↔ x ∈ rs ∧ x ∉ seen.
Proof.
  revert seen. induction rs as [|r rs IH]; intros seen; simpl.
  - rewrite elem_of_nil. tauto.
  - case_bool_decide as Hr.
    + rewrite IH, elem_of_cons. split; [tauto|].
      intros [[->|?] ?]; [done | tauto].
    + rewrite !elem_of_cons, IH, not_elem_of_cons.
      destruct (decide (x = r)) as [->|]; tauto.
Qed.

Lemma NoDup_newcomers seen rs : NoDup (newcomers seen rs).
Proof.
  revert seen. induction rs as [|r rs IH]; intros seen; simpl.
  - constructor.
  - case_bool_decide; [done|]. constructor; [|done].
    rewrite elem_of_newcomers, not_elem_of_cons. tauto.
Qed.

Lemma add_all_newcomers cs rs : add_all cs rs = cs ++ newcomers cs rs.
Proof.
  revert cs. induction rs as [|r rs IH]; intros cs; simpl.
  - by rewrite app_nil_r.
  - unfold add_all in *. simpl. unfold add_client at 2.
    rewrite client_array_has_spec. case_bool_decide as Hr; [done|].
    rewrite IH, <- app_assoc. simpl. do 2 f_equal.
    apply newcomers_agree. intros x _. rewrite elem_of_app, !elem_of_cons,
      elem_of_nil. tauto.
Qed.

Lemma add_all_reconciled C rs :
  add_all (filter (λ c, c ∈ rs) C) rs = reconciled C rs.
Proof.
  rewrite add_all_newcomers. unfold reconciled. f_equal.
  apply newcomers_agree. intros x Hx. rewrite list_elem_of_filter. tauto.
Qed.

Lemma elem_of_reconciled x C rs : x ∈ reconciled C rs ↔ x ∈ rs.
Proof.
  unfold reconciled.
  rewrite elem_of_app, list_elem_of_filter, elem_of_newcomers.
  destruct (decide (x ∈ C)); tauto.
Qed.

Lemma NoDup_reconciled C rs : NoDup C → NoDup (reconciled C rs).
Proof.
  intros HC. apply NoDup_app. split_and!.
  - by apply NoDup_filter.
  - intros x [_ Hx]%list_elem_of_filter [_ Hn]%elem_of_newcomers. done.
  - apply NoDup_newcomers.
Qed.

Lemma NoDup_add_all C rs : NoDup C → NoDup (add_all C rs).
Proof.
  intros HC. rewrite add_all_newcomers. apply NoDup_app. split_and!.
  - done.
  - by intros x Hx [_ Hn]%elem_of_newcomers.
  - apply NoDup_newcomers.
Qed.

(** ** [luaA_tag_clients] with a table argument *)

Lemma luaA_tag_clients_set t items w tr fuel :
  let C := clients (tag_mem w t) in
  let pre := valid_prefix items in
  (length C < fuel)%nat → (length items < fuel)%nat →
  match luaA_tag_clients fuel (mk_state w [VTable items; tag_object t] tr) with
  | Done n L' =>
      n = 1 ∧ all_clients items ∧
      clients (tag_of L' t) = add_all (filter (λ c, c ∈ pre) C) pre ∧
      stack L' = [VTable (client_object <$> clients (tag_of L' t));
                  VTable items; tag_object t] ∧
      only_clients_of t w (mem L')
  | Raise e L' =>
      e = TypeError (-1) "Client" ∧ ¬ all_clients items ∧
      clients (tag_of L' t) =
        (if decide (Forall (λ c, c ∈ pre) C) then add_all C pre else C) ∧
      only_clients_of t w (mem L')
  | OutOfFuel => False
  end.
Proof.
  intros C pre HC Hitems. subst C pre. unfold luaA_tag_clients.
  cbv delta [mbind M_bind] beta.
  change (luaC_checkuclass 1 "Tag" (mk_state w [VTable items; tag_object t] tr))
    with (Done t (mk_state w [VTable items; tag_object t] tr)).
  cbv beta iota.
  change (lua_gettop (mk_state w [VTable items; tag_object t] tr))
    with (Done 2 (mk_state w [VTable items; tag_object t] tr)).
  cbv beta iota.
  change (2 =? 2) with true. cbv beta iota.
  change (luaA_checktable 2 (mk_state w [VTable items; tag_object t] tr))
    with (Done () (mk_state w [VTable items; tag_object t] tr)).
  cbv beta iota.
  pose proof (untag_pass_spec t items w (clients (tag_mem w t)) [] w tr fuel fuel eq_refl
                ltac:(constructor) (only_clients_of_refl t w) HC Hitems) as H1.
  simpl length in H1. change (Z.of_nat 0) with 0 in H1.
  destruct (untag_pass fuel fuel t 0 _) as [[] [w1 s1 tr1]|e L1|]; [| |done].
  - destruct H1 as (Hs1 & Hc1 & Hfr1 & Hor). simpl in Hs1, Hc1, Hfr1.
    subst s1.
    change (lua_pushnil (mk_state w1 [VTable items; tag_object t] tr1))
      with (Done () (mk_state w1 [key_at 0; VTable items; tag_object t] tr1)).
    cbv beta iota.
    pose proof (tag_pass_spec t items w items 0 w1 tr1 fuel eq_refl
                  (Nat.le_0_l _) Hfr1 Hitems) as H2.
    unfold tag_of in Hc1. simpl in Hc1. rewrite Hc1 in H2.
    destruct (tag_pass fuel _) as [[] [w2 s2 tr2]|e L2|]; [| |done].
    + destruct H2 as (Hs2 & Hall & Hc2 & Hfr2). simpl in Hs2, Hfr2.
      unfold tag_of in Hc2. simpl in Hc2. subst s2.
      mrun. rewrite (push_clients_spec _ []). simpl.
      unfold tag_of. simpl. split_and!; done.
    + destruct H2 as (-> & Hnall & Hc2 & Hfr2). split_and!; try done.
      destruct Hor as [?|Hfor]; [done|].
      rewrite decide_True by done. rewrite Hc2. f_equal.
      clear -Hfor. induction (clients (tag_mem w t)) as [|c C IH]; [done|].
      inversion Hfor; subst. rewrite filter_cons_True by done.
      f_equal. by apply IH.
  - destruct H1 as (-> & Hm & _ & Hnall & Hnfor). unfold tag_of.
    rewrite Hm. split_and!; try done.
    + by rewrite decide_False by done.
    + apply only_clients_of_refl.
Qed.

(** ** Activation and selection: what each call does *)

Lemma foreach_workarea scrs w s tr :
  foreach scrs screen_update_workarea (mk_state w s tr) =
    Done () (mk_state w s (tr ++ (Call_screen_update_workarea <$> scrs))).
Proof.
  revert tr. induction scrs as [|x scrs IH]; intros tr; simpl.
  - by rewrite app_nil_r.
  - mrun. rewrite IH, <- app_assoc. done.
Qed.

Lemma activate_noop t w s tr :
  activated (tag_mem w t) = true →
  activate t (mk_state w s tr) = Done [] (mk_state w s tr).
Proof.
  intros H. unfold activate, lua_call, lunaL_setter_tag_activated.
  mrun. by rewrite H.
Qed.

Lemma activate_fresh t w s tr :
  activated (tag_mem w t) = false →
  activate t (mk_state w s tr) =
    Done [] (mk_state (activated_world t w) s
      (tr ++ [Call_ewmh_update_net_numbers_of_desktop;
              Call_ewmh_update_net_desktop_names;
              Signal (tag_object t) ":property.activated" []
                (activated_world t w)])).
Proof.
  intros H. unfold activate, lua_call, lunaL_setter_tag_activated.
  mrun. rewrite H. mrun. rewrite <- !app_assoc. reflexivity.
Qed.

Lemma deactivate_noop t w s tr :
  activated (tag_mem w t) = false →
  deactivate t (mk_state w s tr) = Done [] (mk_state w s tr).
Proof.
  intros H. unfold deactivate, lua_call, lunaL_setter_tag_activated.
  mrun. by rewrite H.
Qed.

Lemma deactivate_selected t w s tr :
  activated (tag_mem w t) = true → selected (tag_mem w t) = true →
  deactivate t (mk_state w s tr) =
    Done [] (mk_state
      (released_world t (deselected_world t (removed_world t w))) s
      (tr ++ [Signal (tag_object t) ":property.selected" []
                (deselected_world t (removed_world t w));
              Call_banning_need_update;
              Call_ewmh_update_net_numbers_of_desktop;
              Call_ewmh_update_net_desktop_names;
              Signal (tag_object t) ":property.activated" []
                (released_world t (deselected_world t (removed_world t w)))])).
Proof.
  intros Ha Hs. unfold deactivate, lua_call, lunaL_setter_tag_activated.
  destruct w as [m cs r [ts fc scs]]. simpl in Ha, Hs.
  mrun. rewrite Ha. mrun.
  unfold released_world, deselected_world, removed_world, registry_without.
  simpl. destruct (array_scan t ts 0); mrun;
    rewrite fn_lookup_alter; simpl; rewrite Hs; mrun;
    rewrite <- !app_assoc; reflexivity.
Qed.

Lemma deactivate_unselected t w s tr :
  activated (tag_mem w t) = true → selected (tag_mem w t) = false →
  deactivate t (mk_state w s tr) =
    Done [] (mk_state (released_world t (removed_world t w)) s
      (tr ++ [Call_ewmh_update_net_numbers_of_desktop;
              Call_ewmh_update_net_desktop_names;
              Signal (tag_object t) ":property.activated" []
                (released_world t (removed_world t w))])).
Proof.
  intros Ha Hs. unfold deactivate, lua_call, lunaL_setter_tag_activated.
  destruct w as [m cs r [ts fc scs]]. simpl in Ha, Hs.
  mrun. rewrite Ha. mrun.
  unfold released_world, deselected_world, removed_world, registry_without.
  simpl. destruct (array_scan t ts 0); mrun;
    rewrite fn_lookup_alter; simpl; rewrite Hs; mrun;
    rewrite <- !app_assoc; reflexivity.
Qed.

Lemma set_selected_noop t v w s tr :
  selected (tag_mem w t) = v →
  set_selected t v (mk_state w s tr) = Done [] (mk_state w s tr).
Proof.
  intros H. unfold set_selected, lua_call, lunaL_setter_tag_selected, tag_view.
  mrun. rewrite H. by destruct v.
Qed.

Lemma set_selected_change t v w s tr :
  selected (tag_mem w t) = negb v →
  set_selected t v (mk_state w s tr) =
    Done [] (mk_state
      (with_tag_mem (alter (with_selected v) t (tag_mem w)) w) s
      (tr ++ Call_banning_need_update ::
         (Call_screen_update_workarea <$> screens (globalconf w)) ++
         [Signal (tag_object t) ":property.selected" []
            (with_tag_mem (alter (with_selected v) t (tag_mem w)) w)])).
Proof.
  intros H. unfold set_selected, lua_call, lunaL_setter_tag_selected, tag_view.
  mrun. rewrite H. replace (negb (Bool.eqb (negb v) v)) with true by (by destruct v).
  mrun. rewrite foreach_workarea. mrun.
  rewrite <- !app_assoc. reflexivity.
Qed.

Lemma do_tag_client_new t c w s tr :
  client_array_has c (clients (tag_mem w t)) = false →
  do_tag_client t c (mk_state w s tr) =
    Done () (mk_state (tagged_world t c w) s
      (tr ++ [Call_ewmh_client_update_desktop c; Call_banning_need_update;
              Call_screen_update_workarea (client_screen w c);
              Signal (client_object c) "tagged" [tag_object t]
                (tagged_world t c w);
              Signal (tag_object t) "tagged" [client_object c]
                (tagged_world t c w)])).
Proof.
  intros H. unfold do_tag_client. cbv delta [mbind M_bind] beta.
  change (luna_object_push "Tag" t (mk_state w s tr))
    with (Done () (mk_state w (tag_object t :: s) tr)).
  cbv beta iota. by apply tag_client_new.
Qed.

Lemma do_tag_client_again t c w s tr :
  client_array_has c (clients (tag_mem w t)) = true →
  do_tag_client t c (mk_state w s tr) = Done () (mk_state w s tr).
Proof.
  intros H. unfold do_tag_client. cbv delta [mbind M_bind] beta.
  change (luna_object_push "Tag" t (mk_state w s tr))
    with (Done () (mk_state w (tag_object t :: s) tr)).
  cbv beta iota. by apply tag_client_again.
Qed.

(** ** The invariants are kept by every operation *)

Lemma state_eta L : mk_state (mem L) (stack L) (trace L) = L.
Proof. by destruct L. Qed.

Lemma only_clients_of_flags t w w' p :
  only_clients_of t w w' →
  activated (tag_mem w' p) = activated (tag_mem w p) ∧
  selected (tag_mem w' p) = selected (tag_mem w p) ∧
  (p ≠ t → clients (tag_mem w' p) = clients (tag_mem w p)).
Proof.
  intros (_ & _ & H). rewrite (H p). case_decide; [|done].
  split_and!; [done | done | intros; congruence].
Qed.

(** [set_clients] runs with enough fuel. *)
Lemma set_clients_effect t R L :
  match set_clients t R L with
  | Done _ L' =>
      all_clients R ∧
      clients (tag_of L' t) =
        reconciled (clients (tag_of L t)) (valid_prefix R) ∧
      only_clients_of t (mem L) (mem L') ∧ stack L' = stack L
  | Raise e L' =>
      e = TypeError (-1) "Client" ∧ ¬ all_clients R ∧
      clients (tag_of L' t) =
        (if decide (Forall (λ c, c ∈ valid_prefix R) (clients (tag_of L t)))
         then clients (tag_of L t) ++
              newcomers (clients (tag_of L t)) (valid_prefix R)
         else clients (tag_of L t)) ∧
      only_clients_of t (mem L) (mem L') ∧ stack L' = stack L
  | OutOfFuel => False
  end.
Proof.
  destruct L as [w s tr]. unfold set_clients, lua_call, tag_of. simpl.
  pose proof (luaA_tag_clients_set t R w tr
                (S (length (clients (tag_mem w t)) + length R))
                ltac:(lia) ltac:(lia)) as H.
  destruct (luaA_tag_clients _ _) as [n L'|e L'|]; [| |done].
  - destruct H as (-> & Hall & Hc & Hs & Hfr). unfold tag_of in *. simpl.
    by rewrite Hc, add_all_reconciled.
  - destruct H as (-> & Hall & Hc & Hfr). unfold tag_of in *. simpl.
    by rewrite Hc, add_all_newcomers.
Qed.

Lemma set_clients_terminates t R L : set_clients t R L ≠ OutOfFuel.
Proof.
  pose proof (set_clients_effect t R L) as H.
  by destruct (set_clients t R L).
Qed.

(** What an operation does to the tag structs, pointwise. *)
Lemma exec_tag_of o L p :
  let tg := tag_of L p in
  let tg' := tag_of (exec o L) p in
  match o with
  | Activate t =>
      tg' = if decide (p = t) then with_activated true tg else tg
  | Deactivate t =>
      tg' = if decide (p = t)
            then (if activated tg
                  then with_selected false (with_activated false tg) else tg)
            else tg
  | SetSelected t v =>
      tg' = if decide (p = t) then with_selected v tg else tg
  | TagClient t c =>
      tg' = if decide (p = t)
            then with_clients (add_client (clients tg) c) tg else tg
  | UntagClient c t =>
      tg' = if decide (p = t)
            then with_clients
                   (match array_scan c (clients tg) 0 with
                    | Some i => delete i (clients tg)
                    | None => clients tg
                    end) tg
            else tg
  | SetClients t R =>
      tg' = if decide (p = t) then with_clients (clients tg') tg else tg
  end.
Proof.
  destruct L as [w s tr]. destruct o as [t|t|t v|t c|c t|t R];
    unfold exec, run, tag_of; simpl.
  - destruct (activated (tag_mem w t)) eqn:Ha.
    + rewrite activate_noop by done. simpl. case_decide; [|done]. subst.
      destruct (tag_mem w t); simpl in *; by subst.
    + rewrite activate_fresh by done. simpl. case_decide.
      * subst. by rewrite fn_lookup_alter.
      * by rewrite fn_lookup_alter_ne.
  - destruct (activated (tag_mem w t)) eqn:Ha.
    + destruct (selected (tag_mem w t)) eqn:Hs.
      * rewrite deactivate_selected by done. simpl. case_decide.
        -- subst. by rewrite !fn_lookup_alter, Ha.
        -- by rewrite !fn_lookup_alter_ne.
      * rewrite deactivate_unselected by done. simpl. case_decide.
        -- subst. rewrite !fn_lookup_alter, Ha.
           destruct (tag_mem w t); simpl in *; by subst.
        -- by rewrite !fn_lookup_alter_ne.
    + rewrite deactivate_noop by done. simpl. case_decide; [|done].
      subst. by rewrite Ha.
  - destruct (Bool.eqb_spec (selected (tag_mem w t)) v) as [He|He].
    + rewrite set_selected_noop by done. simpl. case_decide; [|done]. subst.
      destruct (tag_mem w t); simpl in *; by subst.
    + rewrite set_selected_change
        by (destruct (selected (tag_mem w t)), v; done).
      simpl. case_decide.
      * subst. by rewrite fn_lookup_alter.
      * by rewrite fn_lookup_alter_ne.
  - cbv delta [mbind M_bind] beta. unfold add_client.
    destruct (client_array_has c (clients (tag_mem w t))) eqn:Hh.
    + rewrite do_tag_client_again by done. simpl. case_decide; [|done].
      subst. rewrite Hh. by destruct (tag_mem w t).
    + rewrite do_tag_client_new by done. simpl. case_decide.
      * subst. by rewrite fn_lookup_alter, Hh.
      * by rewrite fn_lookup_alter_ne.
  - cbv delta [mbind M_bind] beta.
    destruct (array_scan c (clients (tag_mem w t)) 0) as [i|] eqn:Hsc.
    + rewrite (untag_client_present c t i) by done. simpl. case_decide.
      * subst. by rewrite fn_lookup_alter, Hsc.
      * by rewrite fn_lookup_alter_ne.
    + rewrite untag_client_absent by done. simpl. case_decide; [|done].
      subst. rewrite Hsc. by destruct (tag_mem w t).
  - pose proof (set_clients_effect t R (mk_state w s tr)) as H.
    destruct (set_clients t R _) as [n L'|e L'|]; [| |done]; simpl.
    + destruct H as (_ & _ & (_ & _ & H) & _). specialize (H p).
      simpl in H. by destruct (decide (p = t)) as [->|].
    + destruct H as (_ & _ & _ & (_ & _ & H) & _). specialize (H p).
      simpl in H. by destruct (decide (p = t)) as [->|].
Qed.

Lemma NoDup_add_client cs c : NoDup cs → NoDup (add_client cs c).
Proof.
  intros H. unfold add_client.
  destruct (client_array_has c cs) eqn:Hh; [done|].
  apply client_array_has_false in Hh. apply NoDup_app. split_and!; [done | |].
  - intros x Hx ->%list_elem_of_singleton. done.
  - apply NoDup_singleton.
Qed.

Lemma I1_exec o L : I1 L → I1 (exec o L).
Proof.
  intros H p. pose proof (exec_tag_of o L p) as Hp.
  destruct o as [t|t|t v|t c|c t|t R]; simpl in Hp.
  - rewrite Hp. case_decide; apply H.
  - rewrite Hp. case_decide; [|apply H].
    destruct (activated (tag_of L p)); apply H.
  - rewrite Hp. case_decide; apply H.
  - rewrite Hp. case_decide; [|apply H]. simpl. apply NoDup_add_client, H.
  - rewrite Hp. case_decide; [|apply H]. simpl.
    destruct (array_scan c (clients (tag_of L p)) 0); [|apply H].
    eapply sublist_NoDup; [apply H | apply sublist_delete].
  - destruct (decide (p = t)) as [->|]; [|rewrite Hp; apply H].
    unfold exec, run. pose proof (set_clients_effect t R L) as He.
    destruct (set_clients t R L) as [n L'|e L'|]; [| |done]; simpl.
    + destruct He as (_ & -> & _). apply NoDup_reconciled, H.
    + destruct He as (_ & _ & -> & _). case_decide; [|apply H].
      rewrite <- add_all_newcomers. apply NoDup_add_all, H.
Qed.

(** What an operation does to the registry. *)
Lemma exec_registry o L :
  registry (exec o L) =
    match o with
    | Activate t =>
        if activated (tag_of L t) then registry L else registry L ++ [t]
    | Deactivate t =>
        if activated (tag_of L t) then registry_without t (registry L)
        else registry L
    | _ => registry L
    end.
Proof.
  destruct L as [w s tr]. destruct o as [t|t|t v|t c|c t|t R];
    unfold exec, run, tag_of, registry; simpl.
  - destruct (activated (tag_mem w t)) eqn:Ha.
    + by rewrite activate_noop.
    + by rewrite activate_fresh.
  - destruct (activated (tag_mem w t)) eqn:Ha.
    + destruct (selected (tag_mem w t)) eqn:Hs.
      * by rewrite deactivate_selected.
      * by rewrite deactivate_unselected.
    + by rewrite deactivate_noop.
  - destruct (Bool.eqb_spec (selected (tag_mem w t)) v) as [He|He].
    + by rewrite set_selected_noop.
    + by rewrite set_selected_change
        by (destruct (selected (tag_mem w t)), v; done).
  - cbv delta [mbind M_bind] beta.
    destruct (client_array_has c (clients (tag_mem w t))) eqn:Hh.
    + by rewrite do_tag_client_again.
    + by rewrite do_tag_client_new.
  - cbv delta [mbind M_bind] beta.
    destruct (array_scan c (clients (tag_mem w t)) 0) as [i|] eqn:Hsc.
    + by rewrite (untag_client_present c t i).
    + by rewrite untag_client_absent.
  - pose proof (set_clients_effect t R (mk_state w s tr)) as H.
    destruct (set_clients t R _) as [n L'|e L'|]; [| |done]; simpl.
    + destruct H as (_ & _ & (H & _) & _). by rewrite H.
    + destruct H as (_ & _ & _ & (H & _) & _). by rewrite H.
Qed.

Lemma registry_without_spec t ts :
  NoDup ts → t ∈ ts →
  NoDup (registry_without t ts) ∧
  ∀ p, p ∈ registry_without t ts ↔ p ∈ ts ∧ p ≠ t.
Proof.
  intros Hnd (l1 & l2 & -> & Hl1)%list_elem_of_split_l.
  unfold registry_without. rewrite array_scan_middle by done. simpl.
  rewrite delete_middle.
  apply NoDup_app in Hnd as (Hn1 & Hd & [Hl2 Hn2]%NoDup_cons).
  split.
  - apply NoDup_app. split_and!; [done | | done].
    intros x Hx Hx2. apply (Hd x Hx). by right.
  - intros p. rewrite !elem_of_app, elem_of_cons.
    destruct (decide (p = t)) as [->|]; tauto.
Qed.

Lemma I2_exec o L : I2 L → I2 (exec o L).
Proof.
  intros [Hnd Hiff]. unfold I2. rewrite exec_registry.
  assert (∀ p, activated (tag_of (exec o L) p) =
    match o with
    | Activate t => if decide (p = t) then true else activated (tag_of L p)
    | Deactivate t => if decide (p = t) then false else activated (tag_of L p)
    | _ => activated (tag_of L p)
    end) as Hact.
  { intros p. pose proof (exec_tag_of o L p) as Hp.
    destruct o as [t|t|t v|t c|c t|t R]; simpl in Hp; rewrite Hp;
      case_decide; try done.
    subst. by destruct (activated (tag_of L t)) eqn:Ha. }
  destruct o as [t|t|t v|t c|c t|t R];
    try (split; [done | intros p; rewrite Hact; apply Hiff]).
  - destruct (activated (tag_of L t)) eqn:Ha.
    + split; [done|]. intros p. rewrite Hact. case_decide; [|apply Hiff].
      subst. by rewrite Hiff.
    + assert (t ∉ registry L) as Hnot by (rewrite Hiff; congruence).
      split.
      * apply NoDup_app. split_and!; [done | | apply NoDup_singleton].
        intros x Hx ->%list_elem_of_singleton. done.
      * intros p. rewrite Hact, elem_of_app, list_elem_of_singleton.
        case_decide; [tauto|]. rewrite Hiff. tauto.
  - destruct (activated (tag_of L t)) eqn:Ha.
    + apply Hiff in Ha.
      destruct (registry_without_spec t _ Hnd Ha) as [Hn Hm].
      split; [done|]. intros p. rewrite Hact, Hm. case_decide.
      * subst. split; [tauto | done].
      * rewrite Hiff. tauto.
    + split; [done|]. intros p. rewrite Hact. case_decide; [|apply Hiff].
      subst. rewrite Hiff, Ha. done.
Qed.

Lemma I1_exec_all os L : I1 L → I1 (exec_all os L).
Proof.
  revert L. induction os as [|o os IH]; intros L H; [done|].
  simpl. by apply IH, I1_exec.
Qed.

Lemma I2_exec_all os L : I2 L → I2 (exec_all os L).
Proof.
  revert L. induction os as [|o os IH]; intros L H; [done|].
  simpl. by apply IH, I2_exec.
Qed.

(** * The claims *)

(** ** Current-tag resolution *)

Lemma scan_current_spec m c arr :
  ∀ i0, 0 ≤ i0 →
    match scan_current m c arr i0 with
    | Some i =>
        first_index (λ t, selected (m t) = true ∧ c ∈ clients (m t))
          arr (i - i0)
    | None =>
        ∀ t, t ∈ arr → ¬ (selected (m t) = true ∧ c ∈ clients (m t))
    end.
Proof.
  induction arr as [|t arr IH]; intros i0 Hi0; simpl.
  - intros t Ht. by apply elem_of_nil in Ht.
  - destruct (selected (m t) && client_array_has c (clients (m t))) eqn:Hp.
    + apply andb_true_iff in Hp as [Hs Hc%client_array_has_true].
      rewrite Z.sub_diag. split; [done|]. exists t.
      split_and!; [done | done | done | intros j t' Hj; simpl in Hj; lia].
    + apply andb_false_iff in Hp.
      assert (¬ (selected (m t) = true ∧ c ∈ clients (m t))) as Hnot.
      { intros [Hs Hc%client_array_has_true]. destruct Hp; congruence. }
      specialize (IH (i0 + 1) ltac:(lia)).
      destruct (scan_current m c arr (i0 + 1)) as [i|].
      * destruct IH as (Hi & t' & Hl & HP & Hfirst).
        split; [lia|]. exists t'.
        replace (Z.to_nat (i - i0)) with (S (Z.to_nat (i - (i0 + 1)))) by lia.
        split; [done|]. split; [exact HP|].
        intros [|j] t'' Hj; simpl; [by intros [= <-]|].
        apply Hfirst. lia.
      * intros t' [->|Ht']%elem_of_cons; [done | by apply IH].
Qed.

Lemma scan_selected_spec m arr :
  ∀ i0, 0 ≤ i0 →
    match scan_selected m arr i0 with
    | Some i => first_index (λ t, selected (m t) = true) arr (i - i0)
    | None => ∀ t, t ∈ arr → selected (m t) = false
    end.
Proof.
  induction arr as [|t arr IH]; intros i0 Hi0; simpl.
  - intros t Ht. by apply elem_of_nil in Ht.
  - destruct (selected (m t)) eqn:Hp.
    + rewrite Z.sub_diag. split; [done|]. exists t.
      split_and!; [done | done | intros j t' Hj; simpl in Hj; lia].
    + specialize (IH (i0 + 1) ltac:(lia)).
      destruct (scan_selected m arr (i0 + 1)) as [i|].
      * destruct IH as (Hi & t' & Hl & HP & Hfirst).
        split; [lia|]. exists t'.
        replace (Z.to_nat (i - i0)) with (S (Z.to_nat (i - (i0 + 1)))) by lia.
        split; [done|]. split; [exact HP|].
        intros [|j] t'' Hj; simpl; [intros [= <-]; congruence|].
        apply Hfirst. lia.
      * intros t' [->|Ht']%elem_of_cons; [done | by apply IH].
Qed.

(** C8.  [tags_get_current_or_first_selected_index] returns the index of
    the first registry tag that is selected and holds the focused client,
    when there is a focused client and such a tag; failing that, the index
    of the first selected tag of the registry; failing that, 0, which is
    also what it returns on an empty registry. *)
Theorem C8_current_or_first_selected (w : world) :
  let arr := tags (globalconf w) in
  let sel := λ t, selected (tag_mem w t) = true in
  let cur := λ c t, selected (tag_mem w t) = true ∧ c ∈ clients (tag_mem w t) in
  let i := tags_get_current_or_first_selected_index w in
  (∀ c, focus_client (globalconf w) = Some c →
        (∃ t, t ∈ arr ∧ cur c t) → first_index (cur c) arr i) ∧
  ((focus_client (globalconf w) = None ∨
    ∃ c, focus_client (globalconf w) = Some c ∧ ∀ t, t ∈ arr → ¬ cur c t) →
   (∃ t, t ∈ arr ∧ sel t) → first_index sel arr i) ∧
  ((∀ t, t ∈ arr → ¬ sel t) → i = 0) ∧
  (arr = [] → i = 0).
Proof.
  intros arr sel cur i. subst i. unfold tags_get_current_or_first_selected_index.
  fold arr.
  pose proof (scan_selected_spec (tag_mem w) arr 0 ltac:(done)) as Hsel.
  assert (∀ c, match scan_current (tag_mem w) c arr 0 with
               | Some i => first_index (cur c) arr i
               | None => ∀ t, t ∈ arr → ¬ cur c t
               end) as Hcur.
  { intros c. pose proof (scan_current_spec (tag_mem w) c arr 0 ltac:(done)) as H.
    destruct (scan_current _ _ _ _); [by rewrite Z.sub_0_r in H | done]. }
  assert (match scan_selected (tag_mem w) arr 0 with
          | Some i => first_index sel arr i
          | None => ∀ t, t ∈ arr → ¬ sel t
          end) as Hsel'.
  { destruct (scan_selected _ _ _); [by rewrite Z.sub_0_r in Hsel|].
    intros t Ht. unfold sel. rewrite (Hsel t Ht). done. }
  clear Hsel. split_and!.
  - intros c -> (t & Ht & Hc). specialize (Hcur c).
    destruct (scan_current _ _ _ _); [done|]. by destruct (Hcur t Ht).
  - intros Hfoc (t & Ht & Hs).
    assert (match scan_selected (tag_mem w) arr 0 with
            | Some i => i | None => 0 end =
            tags_get_current_or_first_selected_index w) as Heq.
    { unfold tags_get_current_or_first_selected_index. fold arr.
      destruct Hfoc as [->|(c & -> & Hnone)]; [done|].
      specialize (Hcur c). destruct (scan_current _ _ _ _) as [i|]; [|done].
      destruct Hcur as (_ & t' & Hl & HP & _).
      destruct (Hnone t'); [|done]. by eapply list_elem_of_lookup_2. }
    unfold tags_get_current_or_first_selected_index in Heq. fold arr in Heq.
    rewrite <- Heq. destruct (scan_selected _ _ _); [done|].
    by destruct (Hsel' t Ht).
  - intros Hnone.
    assert (scan_selected (tag_mem w) arr 0 = None) as ->.
    { destruct (scan_selected _ _ _) as [i|]; [|done].
      destruct Hsel' as (_ & t' & Hl & HP & _).
      destruct (Hnone t'); [|done]. by eapply list_elem_of_lookup_2. }
    destruct (focus_client _) as [c|]; [|done]. specialize (Hcur c).
    destruct (scan_current _ _ _ _) as [i|]; [|done].
    destruct Hcur as (_ & t' & Hl & [HP _] & _).
    destruct (Hnone t'); [|done]. by eapply list_elem_of_lookup_2.
  - intros Harr. rewrite Harr. simpl.
    by destruct (focus_client _).
Qed.

(** ** Accessors *)

(** C10.  [clients()] without a table is a pure query: it returns the
    member list in storage order and leaves the memory (client lists,
    flags, registry, reference counts), the caller's stack and the trace
    of collaborator calls and emitted signals as they were. *)
Theorem C10_clients_query (fuel : nat) (t : ptr) (L : lua_State) :
  lua_call [tag_object t] (luaA_tag_clients fuel) L =
    Done [VTable (client_object <$> clients (tag_of L t))] L.
Proof.
  destruct L as [w s tr]. unfold lua_call, luaA_tag_clients, tag_of.
  simpl rev. cbv delta [mbind M_bind] beta.
  change (luaC_checkuclass 1 "Tag" (mk_state w [tag_object t] tr))
    with (Done t (mk_state w [tag_object t] tr)).
  cbv beta iota. mrun. by rewrite (push_clients_spec _ []).
Qed.

(** The getter of [activated] pushes the [selected] field. *)
Lemma get_activated_reads_selected t L :
  get_activated t L = Done [VBoolean (selected (tag_of L t))] L.
Proof.
  destruct L as [w s tr].
  unfold get_activated, lua_call, lunaL_getter_tag_activated, tag_of.
  by mrun.
Qed.

(** C3.  On a tag that has just been activated (flag set, tag in the
    registry) and is not selected, reading [activated] yields [false]. *)
Theorem C3_activated_getter_reads_selected :
  let L := exec (Activate 1%N) (state0 (λ _, 0%N) []) in
  activated (tag_of L 1%N) = true ∧ registry L = [1%N] ∧
  get_activated 1%N L = Done [VBoolean false] L.
Proof.
  intros L. split_and!; [done | done |].
  by rewrite get_activated_reads_selected.
Qed.

(** ** Single-edge membership *)

(** C5.  A [tag_client] that adds the edge calls the desktop-protocol
    sync for the client once, recomputes the workarea of the client's
    screen once and emits "tagged" twice, on the client with the tag as
    argument and then on the tag with the client as argument; an
    [untag_client] that removes the edge does the same with "untagged".
    Both emissions happen with the client array already updated. *)
Theorem C5_edge_effects (t c : ptr) (w : world) (s : list lua_value)
    (tr : list event) :
  (c ∉ clients (tag_mem w t) →
   ∃ w',
     tag_client c (mk_state w (tag_object t :: s) tr) =
       Done () (mk_state w' s
         (tr ++ [Call_ewmh_client_update_desktop c;
                 Call_banning_need_update;
                 Call_screen_update_workarea (client_screen w c);
                 Signal (client_object c) "tagged" [tag_object t] w';
                 Signal (tag_object t) "tagged" [client_object c] w'])) ∧
     clients (tag_mem w' t) = clients (tag_mem w t) ++ [c]) ∧
  (∀ l1 l2, clients (tag_mem w t) = l1 ++ c :: l2 → c ∉ l1 →
   ∃ w1 w',
     untag_client c t (mk_state w s tr) =
       Done () (mk_state w' s
         (tr ++ [Call_banning_need_update;
                 Call_ewmh_client_update_desktop c;
                 Call_screen_update_workarea (client_screen w c);
                 Signal (client_object c) "untagged" [tag_object t] w1;
                 Signal (tag_object t) "untagged" [client_object c] w1])) ∧
     clients (tag_mem w1 t) = l1 ++ l2 ∧
     clients (tag_mem w' t) = l1 ++ l2).
Proof.
  split.
  - intros Hc%client_array_has_false. exists (tagged_world t c w).
    split; [by apply tag_client_new | apply clients_tagged_world].
  - intros l1 l2 Hcl Hl1.
    exists (taken_world t (length l1) w), (untagged_world t (length l1) w).
    split_and!.
    + apply untag_client_present. by rewrite Hcl, array_scan_middle.
    + simpl. by rewrite fn_lookup_alter, Hcl, delete_middle.
    + by rewrite clients_untagged_world, Hcl, delete_middle.
Qed.

(** ** Activation lifecycle *)

(** C4.  Deactivating a tag that is activated and selected, in a state
    where the registry invariant I2 holds: the call returns with both
    flags false and the tag out of the registry; ":property.selected" is
    emitted first, at a moment when the selection is already off and the
    reference counts are still those of the start (the registry's
    reference is not yet released), and ":property.activated" last, after
    the release. *)
Theorem C4_deactivate_selected (t : ptr) (L : lua_State) :
  I2 L → activated (tag_of L t) = true → selected (tag_of L t) = true →
  ∃ w1 w2,
    deactivate t L =
      Done [] (mk_state w2 (stack L)
        (trace L ++
           [Signal (tag_object t) ":property.selected" [] w1;
            Call_banning_need_update;
            Call_ewmh_update_net_numbers_of_desktop;
            Call_ewmh_update_net_desktop_names;
            Signal (tag_object t) ":property.activated" [] w2])) ∧
    selected (tag_mem w2 t) = false ∧ activated (tag_mem w2 t) = false ∧
    (t ∉ tags (globalconf w2)) ∧
    selected (tag_mem w1 t) = false ∧ (t ∉ tags (globalconf w1)) ∧
    obj_refs w1 = obj_refs (mem L) ∧
    obj_refs w2 = decref t (obj_refs (mem L)).
Proof.
  destruct L as [w s tr]. unfold tag_of. simpl. intros [Hnd Hiff] Ha Hs.
  exists (deselected_world t (removed_world t w)),
    (released_world t (deselected_world t (removed_world t w))).
  assert (t ∉ registry_without t (tags (globalconf w))) as Hout.
  { apply Hiff in Ha. unfold registry, tag_of in *. simpl in *.
    destruct (registry_without_spec t _ Hnd Ha) as [_ Hm].
    rewrite Hm. tauto. }
  split_and!; try done.
  - by apply deactivate_selected.
  - simpl. by rewrite fn_lookup_alter.
  - simpl. by rewrite !fn_lookup_alter.
  - simpl. by rewrite fn_lookup_alter.
Qed.

(** ** Batch reconciliation *)

(** C1.  With a request table [R] made of client objects only and enough
    fuel for the two passes, [luaA_tag_clients] returns one value, the
    table of the new members, and the tag's client array is then the
    reconciliation of the old array with [R]: as a set it is [R]; the old
    members that occur in [R] come first, in their old relative order; the
    members of [R] that were absent follow, in the order [R] first
    mentions them. *)
Theorem C1_set_clients_reconciles (t : ptr) (rs : list ptr) (w : world)
    (tr : list event) (fuel : nat) :
  (length (clients (tag_mem w t)) < fuel)%nat → (length rs < fuel)%nat →
  ∃ L',
    luaA_tag_clients fuel
      (mk_state w [VTable (client_object <$> rs); tag_object t] tr) =
      Done 1 L' ∧
    clients (tag_of L' t) = reconciled (clients (tag_mem w t)) rs ∧
    (∀ x, x ∈ clients (tag_of L' t) ↔ x ∈ rs) ∧
    clients (tag_of L' t) =
      filter (λ c, c ∈ rs) (clients (tag_mem w t)) ++
      newcomers (clients (tag_mem w t)) rs ∧
    head (stack L') = Some (VTable (client_object <$> clients (tag_of L' t))).
Proof.
  intros HC Hrs.
  pose proof (luaA_tag_clients_set t (client_object <$> rs) w tr fuel HC
                ltac:(by rewrite length_fmap)) as H.
  destruct (luaA_tag_clients fuel _) as [n L'|e L'|]; [| |done].
  - destruct H as (-> & _ & Hc & Hs & _).
    rewrite valid_prefix_objects, add_all_reconciled in Hc.
    exists L'. split_and!; [done | done | | done | by rewrite Hs].
    intros x. rewrite Hc. apply elem_of_reconciled.
  - destruct H as (_ & Hnall & _). destruct Hnall. apply all_clients_objects.
Qed.

(** C9.  When the request table holds a value that is not a client
    object, the call ends in a type error, and the memory it leaves is the
    one reached at that point: if every old member occurs in the request
    before the offending value, the clients that precede that value have
    all been tagged and stay tagged; otherwise the error comes up in the
    first pass and the client array is the old one.  No [untag_client] can
    have run in either case. *)
Theorem C9_set_clients_type_error (t : ptr) (items : list lua_value)
    (w : world) (tr : list event) (fuel : nat) :
  ¬ all_clients items →
  (length (clients (tag_mem w t)) < fuel)%nat → (length items < fuel)%nat →
  ∃ L',
    luaA_tag_clients fuel (mk_state w [VTable items; tag_object t] tr) =
      Raise (TypeError (-1) "Client") L' ∧
    clients (tag_of L' t) =
      (if decide (Forall (λ c, c ∈ valid_prefix items) (clients (tag_mem w t)))
       then clients (tag_mem w t) ++
            newcomers (clients (tag_mem w t)) (valid_prefix items)
       else clients (tag_mem w t)) ∧
    only_clients_of t w (mem L').
Proof.
  intros Hnall HC Hitems.
  pose proof (luaA_tag_clients_set t items w tr fuel HC Hitems) as H.
  destruct (luaA_tag_clients fuel _) as [n L'|e L'|]; [| |done].
  - by destruct H as (_ & Hall & _).
  - destruct H as (-> & _ & Hc & Hfr). exists L'.
    split_and!; [done | | done]. by rewrite Hc, add_all_newcomers.
Qed.

(** ** Invariants *)

(** C2, as the code has it.  I3 is kept by [activate], [deactivate],
    [tag_client], [untag_client] and [set_clients], and by [set_selected]
    except when it selects a tag that is not activated. *)
Theorem C2_I3_preserved (o : op) (L : lua_State) :
  I3 L →
  (∀ t, o = SetSelected t true → activated (tag_of L t) = true) →
  I3 (exec o L).
Proof.
  intros H Hsel p. pose proof (exec_tag_of o L p) as Hp.
  destruct o as [t|t|t v|t c|c t|t R]; simpl in Hp; rewrite Hp;
    (case_decide; [subst p; simpl | apply H]).
  - done.
  - destruct (activated (tag_of L t)) eqn:Ha; [done | apply H].
  - destruct v; [|done]. intros Ha. rewrite (Hsel t eq_refl) in Ha. done.
  - apply H.
  - apply H.
  - apply H.
Qed.

(** C2, as stated, fails: in the initial state I3 holds, and selecting
    tag 1, which was never activated, leaves it selected and not
    activated. *)
Lemma C2_counterexample :
  let L := state0 (λ _, 0%N) [] in
  let L' := exec (SetSelected 1%N true) L in
  I3 L ∧ activated (tag_of L' 1%N) = false ∧ selected (tag_of L' 1%N) = true ∧
  ¬ I3 L'.
Proof.
  intros L L'. split_and!; [by intros t | done | done |].
  intros H. specialize (H 1%N eq_refl). discriminate H.
Qed.

Lemma NoDup_occurs_once (c : ptr) (l : list ptr) :
  NoDup l → (length (filter (λ x, x = c) l) ≤ 1)%nat.
Proof.
  induction 1 as [|x l Hx _ IH]; [simpl; lia|].
  destruct (decide (x = c)) as [->|Hne].
  - rewrite filter_cons_True by done. simpl.
    destruct (filter (λ x, x = c) l) as [|y ys] eqn:Hf; [simpl; lia|].
    assert (y ∈ filter (λ x, x = c) l) as Hy by (rewrite Hf; left).
    apply list_elem_of_filter in Hy as [-> Hy]. done.
  - by rewrite filter_cons_False.
Qed.

(** C6.  Starting from a state without duplicates, no sequence of
    operations puts a client twice into a tag's client array; in
    particular [c] occurs at most once in [t]'s array however often
    [tag_client(t, c)] is repeated. *)
Theorem C6_no_duplicates (L : lua_State) :
  I1 L →
  (∀ os, I1 (exec_all os L)) ∧
  (∀ t c n,
     (length (filter (λ x, x = c)
        (clients (tag_of (exec_all (replicate n (TagClient t c)) L) t)))
      ≤ 1)%nat).
Proof.
  intros H. split.
  - intros os. by apply I1_exec_all.
  - intros t c n. apply NoDup_occurs_once. by apply I1_exec_all.
Qed.

(** ** Idempotence *)

(** C7.  In a state without duplicates, doing [activate], [deactivate],
    [tag_client] or [untag_client] a second time with the same arguments
    returns normally and leaves the whole state as the first call left it:
    memory, registry, reference counts, stack and the trace of emitted
    signals and collaborator calls. *)
Theorem C7_second_call_is_noop (o : op) (L : lua_State) :
  repeatable o → I1 L →
  run o (exec o L) = Done [] (exec o L).
Proof.
  intros Hrep HI1. destruct L as [w s tr].
  destruct o as [t|t|t v|t c|c t|t R]; try done; unfold exec, run.
  - destruct (activated (tag_mem w t)) eqn:Ha.
    + rewrite activate_noop by done. simpl. by apply activate_noop.
    + rewrite activate_fresh by done. simpl. apply activate_noop.
      simpl. by rewrite fn_lookup_alter.
  - destruct (activated (tag_mem w t)) eqn:Ha.
    + destruct (selected (tag_mem w t)) eqn:Hs.
      * rewrite deactivate_selected by done. simpl. apply deactivate_noop.
        simpl. by rewrite !fn_lookup_alter.
      * rewrite deactivate_unselected by done. simpl. apply deactivate_noop.
        simpl. by rewrite !fn_lookup_alter.
    + rewrite deactivate_noop by done. simpl. by apply deactivate_noop.
  - cbv delta [mbind M_bind] beta.
    destruct (client_array_has c (clients (tag_mem w t))) eqn:Hh.
    + rewrite do_tag_client_again by done. simpl.
      by rewrite do_tag_client_again.
    + rewrite do_tag_client_new by done. simpl.
      rewrite do_tag_client_again; [done|].
      rewrite clients_tagged_world. apply client_array_has_true.
      apply elem_of_app. right. left.
  - cbv delta [mbind M_bind] beta.
    destruct (array_scan c (clients (tag_mem w t)) 0) as [i|] eqn:Hsc.
    + rewrite (untag_client_present c t i) by done. simpl.
      rewrite untag_client_absent; [done|].
      unfold tag_of. simpl mem. rewrite clients_untagged_world.
      apply array_scan_inv in Hsc as (l1 & l2 & Hcl & Hl1 & ->).
      specialize (HI1 t). unfold tag_of in HI1. simpl in HI1.
      rewrite Hcl in *. simpl. rewrite delete_middle.
      apply array_scan_None.
      apply NoDup_app in HI1 as (_ & _ & [Hl2 _]%NoDup_cons).
      rewrite elem_of_app. tauto.
    + rewrite (untag_client_absent c t (mk_state w s tr)) by exact Hsc.
      simpl. by rewrite untag_client_absent by exact Hsc.
Qed.

(** ** The statements at concrete inputs *)

Lemma C1_witness :
  ∃ L',
    luaA_tag_clients 3
      (mk_state (mem demo_state)
         [VTable (client_object <$> [12%N; 13%N]); tag_object 1%N] []) =
      Done 1 L' ∧
    clients (tag_of L' 1%N) = [12%N; 13%N].
Proof.
  destruct (C1_set_clients_reconciles 1%N [12%N; 13%N] (mem demo_state) [] 3)
    as (L' & Hrun & Hcl & _).
  - vm_compute. lia.
  - simpl. lia.
  - exists L'. split; [exact Hrun | rewrite Hcl; reflexivity].
Defined.

Lemma C9_witness :
  ∃ L',
    luaA_tag_clients 6
      (mk_state (mem demo_state)
         [VTable [client_object 11%N; client_object 12%N; client_object 13%N;
                  VNil; client_object 14%N];
          tag_object 1%N] []) =
      Raise (TypeError (-1) "Client") L' ∧
    clients (tag_of L' 1%N) = [11%N; 12%N; 13%N].
Proof.
  destruct (C9_set_clients_type_error 1%N
              [client_object 11%N; client_object 12%N; client_object 13%N;
               VNil; client_object 14%N]
              (mem demo_state) [] 6)
    as (L' & Hrun & Hcl & _).
  - intros H. do 3 (apply Forall_cons in H as [_ H]).
    apply Forall_cons in H as [[p Hp] _]. discriminate Hp.
  - vm_compute. lia.
  - simpl. lia.
  - exists L'. split; [exact Hrun | rewrite Hcl; reflexivity].
Defined.

Lemma I1_state0 scr scrs : I1 (state0 scr scrs).
Proof. intros t. constructor. Qed.

Lemma I2_state0 scr scrs : I2 (state0 scr scrs).
Proof.
  split; [constructor|]. intros t. unfold registry. simpl.
  rewrite elem_of_nil. split; [tauto | discriminate].
Qed.

Lemma I3_state0 scr scrs : I3 (state0 scr scrs).
Proof. by intros t. Qed.

Lemma C2_witness :
  I3 (exec (SetSelected 1%N true) (exec (Activate 1%N) (state0 (λ _, 5%N) []))).
Proof.
  apply C2_I3_preserved.
  - apply C2_I3_preserved; [apply I3_state0 | intros t H; discriminate H].
  - intros t H. injection H as <-. reflexivity.
Defined.

Lemma C4_witness :
  ∃ w1 w2 tr,
    deactivate 1%N demo_state = Done [] (mk_state w2 [] tr) ∧
    selected (tag_mem w2 1%N) = false ∧ activated (tag_mem w2 1%N) = false ∧
    (1%N ∉ tags (globalconf w2)) ∧
    obj_refs w1 = obj_refs (mem demo_state) ∧
    obj_refs w2 = decref 1%N (obj_refs (mem demo_state)).
Proof.
  destruct (C4_deactivate_selected 1%N demo_state)
    as (w1 & w2 & Hrun & Hs & Ha & Hreg & _ & _ & Hr1 & Hr2).
  - apply I2_exec_all, I2_state0.
  - reflexivity.
  - reflexivity.
  - exists w1, w2. eexists. split_and!; [exact Hrun | done..].
Defined.


Lemma C5_witness :
  (∃ w',
     tag_client 13%N
       (mk_state (mem demo_state) [tag_object 1%N] []) =
       Done () (mk_state w' []
         [Call_ewmh_client_update_desktop 13%N; Call_banning_need_update;
          Call_screen_update_workarea 5%N;
          Signal (client_object 13%N) "tagged" [tag_object 1%N] w';
          Signal (tag_object 1%N) "tagged" [client_object 13%N] w']) ∧
     clients (tag_mem w' 1%N) = [11%N; 12%N; 13%N]) ∧
  (∃ w1 w',
     untag_client 11%N 1%N (mk_state (mem demo_state) [] []) =
       Done () (mk_state w' []
         [Call_banning_need_update; Call_ewmh_client_update_desktop 11%N;
          Call_screen_update_workarea 5%N;
          Signal (client_object 11%N) "untagged" [tag_object 1%N] w1;
          Signal (tag_object 1%N) "untagged" [client_object 11%N] w1]) ∧
     clients (tag_mem w1 1%N) = [12%N] ∧ clients (tag_mem w' 1%N) = [12%N]).
Proof.
  split.
  - apply (proj1 (C5_edge_effects 1%N 13%N (mem demo_state) [] [])).
    vm_compute. intros H. repeat (apply elem_of_cons in H as [H|H]; [discriminate H|]).
    by apply elem_of_nil in H.
  - apply (proj2 (C5_edge_effects 1%N 11%N (mem demo_state) [] []) [] [12%N]).
    + reflexivity.
    + apply not_elem_of_nil.
Defined.

Lemma C6_witness :
  I1 (exec_all [Activate 1%N; TagClient 1%N 11%N; TagClient 1%N 11%N;
                SetClients 1%N [client_object 11%N; client_object 11%N]]
        (state0 (λ _, 5%N) [5%N])).
Proof.
  apply (proj1 (C6_no_duplicates (state0 (λ _, 5%N) [5%N])
                  ltac:(intros t; constructor))).
Defined.

Lemma C7_witness :
  run (TagClient 1%N 13%N) (exec (TagClient 1%N 13%N) demo_state) =
    Done [] (exec (TagClient 1%N 13%N) demo_state).
Proof.
  apply C7_second_call_is_noop.
  - exact I.
  - apply I1_exec_all. intros t. constructor.
Defined.

Lemma C8_witness :
  first_index
    (λ t, selected (tag_mem (demo_focus (Some 12%N)) t) = true ∧
          12%N ∈ clients (tag_mem (demo_focus (Some 12%N)) t))
    [2%N; 1%N] 1 ∧
  tags_get_current_or_first_selected_index
    (with_tags [] (demo_focus (Some 12%N))) = 0.
Proof.
  split.
  - apply (proj1 (C8_current_or_first_selected (demo_focus (Some 12%N)))
             12%N eq_refl).
    exists 1%N. split_and!.
    + right. left.
    + reflexivity.
    + vm_compute. right. left.
  - apply (C8_current_or_first_selected (with_tags [] (demo_focus (Some 12%N)))).
    reflexivity.
Defined.

(** * Further properties of the tag class *)

(** ** One call, one step *)

Lemma tag_client_step c t w s tr :
  tag_client c (mk_state w (tag_object t :: s) tr) =
    Done () (mk_state (tag_step t (w, tr) c).1 s (tag_step t (w, tr) c).2).
Proof.
  unfold tag_step. simpl.
  destruct (client_array_has c (clients (tag_mem w t))) eqn:Hh.
  - by apply tag_client_again.
  - by apply tag_client_new.
Qed.

Lemma untag_client_step c t w s tr :
  untag_client c t (mk_state w s tr) =
    Done () (mk_state (untag_step t (w, tr) c).1 s (untag_step t (w, tr) c).2).
Proof.
  unfold untag_step. simpl.
  destruct (array_scan c (clients (tag_mem w t)) 0) as [i|] eqn:Hsc.
  - by apply untag_client_present.
  - by apply untag_client_absent.
Qed.

(** ** The two passes, exactly *)

Section passes_exact.
Context (t : ptr) (items : list lua_value).

Lemma tag_pass_exact suffix :
  ∀ pos w tr fuel,
    drop pos items = suffix → (pos ≤ length items)%nat →
    (length suffix < fuel)%nat →
    match tag_pass fuel (mk_state w [key_at pos; VTable items; tag_object t] tr)
    with
    | Done _ L' =>
        all_clients suffix ∧
        L' = mk_state (foldl (tag_step t) (w, tr) (valid_prefix suffix)).1
               [VTable items; tag_object t]
               (foldl (tag_step t) (w, tr) (valid_prefix suffix)).2
    | Raise e L' =>
        e = TypeError (-1) "Client" ∧ ¬ all_clients suffix ∧
        mem L' = (foldl (tag_step t) (w, tr) (valid_prefix suffix)).1 ∧
        trace L' = (foldl (tag_step t) (w, tr) (valid_prefix suffix)).2
    | OutOfFuel => False
    end.
Proof.
  induction suffix as [|v rest IH]; intros pos w tr fuel Hdrop Hpos Hfuel;
    (destruct fuel as [|fuel]; [simpl in Hfuel; lia|]).
  - assert (items !! pos = None) as Hnone.
    { apply lookup_ge_None. apply (f_equal length) in Hdrop.
      rewrite length_drop in Hdrop. simpl in Hdrop. lia. }
    simpl tag_pass. cbv delta [mbind M_bind] beta.
    rewrite lua_next_at, Hnone by done. simpl.
    split; [constructor | done].
  - apply lookup_drop_head in Hdrop as [Hv Hrest].
    assert (S pos ≤ length items)%nat by (apply lookup_lt_Some in Hv; lia).
    simpl tag_pass. cbv delta [mbind M_bind] beta.
    rewrite lua_next_at, Hv by done. cbv beta iota.
    rewrite luaC_checkuclass_client.
    destruct (as_client v) as [c|] eqn:Hc.
    + cbv beta iota.
      change (lua_pushvalue 1
                (mk_state w [v; key_at (S pos); VTable items; tag_object t] tr))
        with (Done () (mk_state w
                [tag_object t; v; key_at (S pos); VTable items; tag_object t]
                tr)).
      cbv beta iota. rewrite tag_client_step. cbv beta iota.
      simpl valid_prefix. rewrite Hc. simpl foldl.
      destruct (tag_step t (w, tr) c) as [w1 tr1] eqn:Hstep. simpl fst. simpl snd.
      change (lua_pop 1 (mk_state w1 [v; key_at (S pos); VTable items;
                                      tag_object t] tr1))
        with (Done () (mk_state w1 [key_at (S pos); VTable items;
                                    tag_object t] tr1)).
      cbv beta iota.
      specialize (IH (S pos) w1 tr1 fuel Hrest H ltac:(simpl in Hfuel; lia)).
      simpl in IH. destruct (tag_pass fuel _) as [[] L'|e L'|]; [| |done].
      * destruct IH as [Hall ->]. split; [|done].
        constructor; [by rewrite Hc | done].
      * destruct IH as (-> & Hn & Hm & Ht). split_and!; try done.
        intros Hall. apply Hn. by inversion Hall.
    + simpl. rewrite Hc. simpl. split_and!; try done.
      intros Hall. inversion Hall as [|?? [? Hs] ?]; congruence.
Qed.

Lemma untag_pass_exact rest :
  let pre := valid_prefix items in
  ∀ kept w tr fuel inner,
    clients (tag_mem w t) = kept ++ rest →
    Forall (λ c, c ∈ pre) kept →
    (length rest < fuel)%nat → (length items < inner)%nat →
    match untag_pass fuel inner t (Z.of_nat (length kept))
            (mk_state w [VTable items; tag_object t] tr)
    with
    | Done _ L' =>
        L' = mk_state
               (foldl (untag_step t) (w, tr) (filter (λ c, c ∉ pre) rest)).1
               [VTable items; tag_object t]
               (foldl (untag_step t) (w, tr) (filter (λ c, c ∉ pre) rest)).2 ∧
        (all_clients items ∨ Forall (λ c, c ∈ pre) rest)
    | Raise e L' =>
        e = TypeError (-1) "Client" ∧ mem L' = w ∧ trace L' = tr ∧
        ¬ all_clients items ∧ ¬ Forall (λ c, c ∈ pre) rest
    | OutOfFuel => False
    end.
Proof.
  intros pre. induction rest as [|c rest IH];
    intros kept w tr fuel inner Hcl Hkept Hfuel Hinner;
    (destruct fuel as [|fuel]; [simpl in Hfuel; lia|]).
  - simpl untag_pass. cbv delta [mbind M_bind load_tag get_mem mret M_ret] beta.
    rewrite app_nil_r in Hcl. simpl. rewrite Hcl, Z.ltb_irrefl.
    split; [done | right; constructor].
  - simpl untag_pass. cbv delta [mbind M_bind load_tag get_mem mret M_ret] beta.
    simpl mem. cbv beta iota. rewrite Hcl.
    replace (Z.of_nat (length kept) <? Z.of_nat (length (kept ++ c :: rest)))
      with true by (symmetry; apply Z.ltb_lt; rewrite length_app; simpl; lia).
    rewrite Nat2Z.id, list_lookup_middle by done. simpl default.
    change (lua_pushnil (mk_state w [VTable items; tag_object t] tr))
      with (Done () (mk_state w [key_at 0; VTable items; tag_object t] tr)).
    cbv beta iota.
    pose proof (found_in_table_spec c items (tag_object t) w tr items 0 inner
                  eq_refl (Nat.le_0_l _) Hinner) as Hf.
    destruct (found_in_table inner c _) as [b L1|e L1|]; [| |done].
    + destruct Hf as (-> & Hb & Hall). destruct b.
      * symmetry in Hb. apply bool_decide_eq_true in Hb.
        replace (Z.of_nat (length kept) + 1)
          with (Z.of_nat (length (kept ++ [c])))
          by (rewrite length_app; simpl; lia).
        specialize (IH (kept ++ [c]) w tr fuel inner).
        rewrite <- app_assoc in IH.
        specialize (IH Hcl ltac:(apply Forall_app; split; [done | by constructor])
                      ltac:(simpl in Hfuel; lia) Hinner).
        rewrite filter_cons_False by (intros Hn; by apply Hn).
        simpl in IH. destruct (untag_pass fuel inner t _ _) as [[] L'|e L'|];
          [| |done].
        -- destruct IH as [HL Hor]. split; [exact HL|].
           destruct Hor as [?|?]; [by left | right; by constructor].
        -- destruct IH as (-> & Hm & Ht & Hnall & Hnot).
           split_and!; try done. intros Hall'. apply Hnot. by inversion Hall'.
      * symmetry in Hb. apply bool_decide_eq_false in Hb.
        assert (c ∉ kept) as Hck.
        { intros Hin. apply Hb. by eapply (proj1 (Forall_forall _ _) Hkept). }
        change (default 0%N (Some c)) with c.
        rewrite untag_client_step. cbv beta iota.
        rewrite filter_cons_True by done. simpl foldl.
        destruct (untag_step t (w, tr) c) as [w1 tr1] eqn:Hstep.
        simpl fst. simpl snd.
        assert (w1 = untagged_world t (length kept) w) as ->.
        { unfold untag_step in Hstep. simpl in Hstep.
          rewrite Hcl, array_scan_middle in Hstep by done.
          by injection Hstep as <- _. }
        replace (Z.of_nat (length kept) - 1 + 1) with (Z.of_nat (length kept))
          by lia.
        specialize (IH kept (untagged_world t (length kept) w) tr1 fuel inner).
        rewrite clients_untagged_world, Hcl, delete_middle in IH.
        specialize (IH eq_refl Hkept ltac:(simpl in Hfuel; lia) Hinner).
        simpl in IH. destruct (untag_pass fuel inner t _ _) as [[] L'|e L'|];
          [| |done].
        -- destruct IH as [HL Hor]. split; [exact HL|]. left. by apply Hall.
        -- destruct IH as (_ & _ & _ & Hnall & _). destruct Hnall. by apply Hall.
    + destruct Hf as (-> & Hm & Ht & Hnall & Hnot). split_and!; try done.
      intros Hall'. apply Hnot. by inversion Hall'.
Qed.

End passes_exact.

Lemma filter_all_out (pre C : list ptr) :
  Forall (λ c, c ∈ pre) C → filter (λ c, c ∉ pre) C = [].
Proof.
  induction 1 as [|c C Hc _ IH]; [done|].
  rewrite filter_cons_False by (intros Hn; by apply Hn). done.
Qed.

Lemma run_set_clients t R L :
  let s' := set_clients_outcome t R (mem L, trace L) in
  match run (SetClients t R) L with
  | Done vs L' =>
      all_clients R ∧ L' = mk_state s'.1 (stack L) s'.2 ∧
      vs = [VTable (client_object <$> clients (tag_mem s'.1 t))]
  | Raise e L' =>
      e = TypeError (-1) "Client" ∧ ¬ all_clients R ∧
      L' = mk_state s'.1 (stack L) s'.2
  | OutOfFuel => False
  end.
Proof.
  destruct L as [w s tr]. simpl. unfold set_clients, lua_call. simpl.
  set (fuel := S (length (clients (tag_mem w t)) + length R)).
  unfold luaA_tag_clients. cbv delta [mbind M_bind] beta.
  change (luaC_checkuclass 1 "Tag" (mk_state w [VTable R; tag_object t] tr))
    with (Done t (mk_state w [VTable R; tag_object t] tr)).
  cbv beta iota.
  change (lua_gettop (mk_state w [VTable R; tag_object t] tr))
    with (Done 2 (mk_state w [VTable R; tag_object t] tr)).
  cbv beta iota. change (2 =? 2) with true. cbv beta iota.
  change (luaA_checktable 2 (mk_state w [VTable R; tag_object t] tr))
    with (Done () (mk_state w [VTable R; tag_object t] tr)).
  cbv beta iota.
  pose proof (untag_pass_exact t R (clients (tag_mem w t)) [] w tr fuel fuel
                eq_refl ltac:(constructor) ltac:(unfold fuel; lia)
                ltac:(unfold fuel; lia)) as H1.
  simpl length in H1. change (Z.of_nat 0) with 0 in H1.
  unfold set_clients_outcome. simpl fst.
  destruct (untag_pass fuel fuel t 0 _) as [[] L1|e L1|]; [| |done].
  - destruct H1 as [-> Hor].
    destruct (foldl (untag_step t) (w, tr) _) as [w1 tr1] eqn:Hp1.
    simpl fst. simpl snd.
    change (lua_pushnil (mk_state w1 [VTable R; tag_object t] tr1))
      with (Done () (mk_state w1 [key_at 0; VTable R; tag_object t] tr1)).
    cbv beta iota.
    pose proof (tag_pass_exact t R R 0 w1 tr1 fuel eq_refl (Nat.le_0_l _)
                  ltac:(unfold fuel; lia)) as H2.
    destruct (tag_pass fuel _) as [[] L2|e L2|]; [| |done].
    + destruct H2 as [Hall ->]. rewrite decide_True by done.
      destruct (foldl (tag_step t) (w1, tr1) _) as [w2 tr2].
      mrun. rewrite (push_clients_spec _ []). simpl. done.
    + destruct H2 as (-> & Hnall & Hm & Ht). rewrite decide_False by done.
      destruct Hor as [?|Hfor]; [done|]. rewrite decide_True by done.
      rewrite filter_all_out in Hp1 by done. simpl in Hp1.
      injection Hp1 as <- <-. rewrite Hm, Ht. done.
  - destruct H1 as (-> & Hm & Ht & Hnall & Hnfor).
    rewrite !decide_False by done. simpl. by rewrite Hm, Ht.
Qed.

Lemma exec_set_clients t R L :
  exec (SetClients t R) L =
    mk_state (set_clients_outcome t R (mem L, trace L)).1 (stack L)
      (set_clients_outcome t R (mem L, trace L)).2.
Proof.
  unfold exec. pose proof (run_set_clients t R L) as H. cbv zeta in H.
  destruct (run (SetClients t R) L) as [vs L'|e L'|]; [| |done]; simpl.
  - by destruct H as (_ & -> & _).
  - by destruct H as (_ & _ & ->).
Qed.

(** ** Memory and trace after each operation *)

Lemma exec_outcome o L :
  let w := mem L in
  let tr := trace L in
  (mem (exec o L), trace (exec o L)) =
    match o with
    | Activate t =>
        if activated (tag_mem w t) then (w, tr)
        else (activated_world t w,
              tr ++ [Call_ewmh_update_net_numbers_of_desktop;
                     Call_ewmh_update_net_desktop_names;
                     Signal (tag_object t) ":property.activated" []
                       (activated_world t w)])
    | Deactivate t =>
        if activated (tag_mem w t) then
          if selected (tag_mem w t) then
            (released_world t (deselected_world t (removed_world t w)),
             tr ++ [Signal (tag_object t) ":property.selected" []
                      (deselected_world t (removed_world t w));
                    Call_banning_need_update;
                    Call_ewmh_update_net_numbers_of_desktop;
                    Call_ewmh_update_net_desktop_names;
                    Signal (tag_object t) ":property.activated" []
                      (released_world t
                         (deselected_world t (removed_world t w)))])
          else
            (released_world t (removed_world t w),
             tr ++ [Call_ewmh_update_net_numbers_of_desktop;
                    Call_ewmh_update_net_desktop_names;
                    Signal (tag_object t) ":property.activated" []
                      (released_world t (removed_world t w))])
        else (w, tr)
    | SetSelected t v =>
        if Bool.eqb (selected (tag_mem w t)) v then (w, tr)
        else (with_tag_mem (alter (with_selected v) t (tag_mem w)) w,
              tr ++ Call_banning_need_update ::
                (Call_screen_update_workarea <$> screens (globalconf w)) ++
                [Signal (tag_object t) ":property.selected" []
                   (with_tag_mem (alter (with_selected v) t (tag_mem w)) w)])
    | TagClient t c => tag_step t (w, tr) c
    | UntagClient c t => untag_step t (w, tr) c
    | SetClients t R => set_clients_outcome t R (w, tr)
    end.
Proof.
  destruct L as [w s tr]. destruct o as [t|t|t v|t c|c t|t R]; simpl.
  - unfold exec, run. destruct (activated (tag_mem w t)) eqn:Ha.
    + by rewrite activate_noop.
    + by rewrite activate_fresh.
  - unfold exec, run. destruct (activated (tag_mem w t)) eqn:Ha.
    + destruct (selected (tag_mem w t)) eqn:Hs.
      * by rewrite deactivate_selected.
      * by rewrite deactivate_unselected.
    + by rewrite deactivate_noop.
  - unfold exec, run.
    destruct (Bool.eqb_spec (selected (tag_mem w t)) v) as [He|He].
    + by rewrite set_selected_noop.
    + by rewrite set_selected_change
        by (destruct (selected (tag_mem w t)), v; done).
  - unfold exec, run, do_tag_client. cbv delta [mbind M_bind] beta.
    change (luna_object_push "Tag" t (mk_state w s tr))
      with (Done () (mk_state w (tag_object t :: s) tr)).
    cbv beta iota. rewrite tag_client_step. simpl.
    by destruct (tag_step t (w, tr) c).
  - unfold exec, run. cbv delta [mbind M_bind] beta.
    rewrite untag_client_step. simpl. by destruct (untag_step t (w, tr) c).
  - rewrite exec_set_clients. simpl.
    by destruct (set_clients_outcome t R (w, tr)).
Qed.

Lemma exec_stack o L : stack (exec o L) = stack L.
Proof.
  destruct L as [w s tr]. destruct o as [t|t|t v|t c|c t|t R]; simpl.
  - unfold exec, run, activate, lua_call.
    by destruct (lunaL_setter_tag_activated _).
  - unfold exec, run, deactivate, lua_call.
    by destruct (lunaL_setter_tag_activated _).
  - unfold exec, run, set_selected, lua_call.
    by destruct (lunaL_setter_tag_selected _).
  - unfold exec, run, do_tag_client. cbv delta [mbind M_bind] beta.
    change (luna_object_push "Tag" t (mk_state w s tr))
      with (Done () (mk_state w (tag_object t :: s) tr)).
    cbv beta iota. by rewrite tag_client_step.
  - unfold exec, run. cbv delta [mbind M_bind] beta.
    by rewrite untag_client_step.
  - by rewrite exec_set_clients.
Qed.

(** ** Reference counts *)

Lemma refcount_incref p w q :
  refcount (with_obj_refs (incref p (obj_refs w)) w) q =
    if decide (q = p) then S (refcount w q) else refcount w q.
Proof.
  unfold refcount, incref. simpl. case_decide as Hq.
  - subst. destruct (obj_refs w !! p) as [n|] eqn:Hp;
      rewrite lookup_insert_eq; [lia | done].
  - destruct (obj_refs w !! p) as [n|] eqn:Hp;
      by rewrite lookup_insert_ne.
Qed.

Lemma refcount_decref p w q :
  refcount (with_obj_refs (decref p (obj_refs w)) w) q =
    if decide (q = p) then pred (refcount w q) else refcount w q.
Proof.
  unfold refcount, decref. simpl. case_decide as Hq.
  - subst. destruct (obj_refs w !! p) as [n|] eqn:Hp; [|by rewrite Hp].
    destruct (decide (n = 1%positive)) as [->|Hn].
    + by rewrite lookup_delete_eq.
    + replace (match n with 1%positive => delete p (obj_refs w)
                          | _ => <[p:=Pos.pred n]> (obj_refs w) end)
        with (<[p:=Pos.pred n]> (obj_refs w)) by (by destruct n).
      rewrite lookup_insert_eq. lia.
  - destruct (obj_refs w !! p) as [n|] eqn:Hp; [|done].
    destruct n; by rewrite ?lookup_insert_ne, ?lookup_delete_ne.
Qed.

Lemma balanced_tagged t c w : balanced w → balanced (tagged_world t c w).
Proof.
  intros H p. unfold tagged_world.
  change (refcount (with_tag_mem ?m ?w') p) with (refcount w' p).
  rewrite refcount_incref, (H p). simpl. case_decide as Hp.
  - subst. rewrite fn_lookup_alter. simpl. rewrite length_app. simpl. lia.
  - by rewrite fn_lookup_alter_ne.
Qed.

Lemma balanced_untagged t i w :
  balanced w → (i < length (clients (tag_mem w t)))%nat →
  balanced (untagged_world t i w).
Proof.
  intros H Hi p. unfold untagged_world.
  change (refcount (with_obj_refs ?r (taken_world t i w)) p)
    with (refcount (with_obj_refs r w) p).
  rewrite refcount_decref, (H p). simpl. case_decide as Hp.
  - subst. rewrite fn_lookup_alter. simpl.
    rewrite length_delete by (by apply lookup_lt_is_Some_2). lia.
  - by rewrite fn_lookup_alter_ne.
Qed.

Lemma balanced_tag_step t s c : balanced s.1 → balanced (tag_step t s c).1.
Proof.
  intros H. unfold tag_step. destruct (client_array_has _ _); [done|].
  by apply balanced_tagged.
Qed.

Lemma balanced_untag_step t s c : balanced s.1 → balanced (untag_step t s c).1.
Proof.
  intros H. unfold untag_step.
  destruct (array_scan _ _ _) as [i|] eqn:Hsc; [|done].
  apply balanced_untagged; [done|].
  apply array_scan_inv in Hsc as (l1 & l2 & -> & _ & ->).
  rewrite length_app. simpl. lia.
Qed.

(** An invariant of the memory that every tag step and every untag step
    keeps is kept by any run of them, hence by [set_clients]. *)
Lemma foldl_step_invariant (P : world → Prop) (f : outcome → ptr → outcome)
    (cs : list ptr) (s : outcome) :
  (∀ s c, P s.1 → P (f s c).1) → P s.1 → P (foldl f s cs).1.
Proof.
  intros Hf. revert s. induction cs as [|c cs IH]; intros s Hs; [done|].
  simpl. by apply IH, Hf.
Qed.

Lemma set_clients_outcome_invariant (P : world → Prop) t R s :
  (∀ s c, P s.1 → P (tag_step t s c).1) →
  (∀ s c, P s.1 → P (untag_step t s c).1) →
  P s.1 → P (set_clients_outcome t R s).1.
Proof.
  intros Ht Hu Hs. unfold set_clients_outcome.
  repeat case_decide; [| |done].
  - apply (foldl_step_invariant P); [exact Ht|].
    by apply (foldl_step_invariant P).
  - by apply (foldl_step_invariant P).
Qed.

Lemma balanced_exec o L : I2 L → balanced (mem L) → balanced (mem (exec o L)).
Proof.
  intros [Hnd Hiff] Hb. pose proof (exec_outcome o L) as Ho.
  cbv zeta in Ho. apply (f_equal fst) in Ho. simpl in Ho. rewrite Ho. clear Ho.
  unfold registry, tag_of in *.
  destruct o as [t|t|t v|t c|c t|t R].
  - destruct (activated (tag_mem (mem L) t)) eqn:Ha; [done|]. simpl.
    assert (t ∉ tags (globalconf (mem L))) as Hnot by (rewrite Hiff; congruence).
    intros p. unfold activated_world.
    change (refcount (with_tags ?ts (with_obj_refs ?r (with_tag_mem ?m ?w))) p)
      with (refcount (with_obj_refs r w) p).
    rewrite refcount_incref, (Hb p). simpl.
    rewrite (bool_decide_ext (p ∈ tags (globalconf (mem L)) ++ [t])
               (p ∈ tags (globalconf (mem L)) ∨ p = t))
      by (by rewrite elem_of_app, list_elem_of_singleton).
    case_decide as Hp.
    + subst. rewrite fn_lookup_alter. simpl.
      rewrite bool_decide_eq_false_2 by done.
      rewrite bool_decide_eq_true_2 by (by right). lia.
    + rewrite fn_lookup_alter_ne by done. f_equal.
      apply f_equal with (f := λ b : bool, if b then 1%nat else 0%nat).
      apply bool_decide_ext. tauto.
  - destruct (activated (tag_mem (mem L) t)) eqn:Ha; [|done].
    apply Hiff in Ha.
    destruct (registry_without_spec t _ Hnd Ha) as [_ Hm].
    assert (∀ w', obj_refs w' = obj_refs (mem L) →
              tags (globalconf w') = registry_without t (tags (globalconf (mem L))) →
              (∀ p, clients (tag_mem w' p) = clients (tag_mem (mem L) p)) →
              balanced (released_world t w')) as Hgen.
    { intros w' Hr Ht Hc p. unfold released_world.
      assert (refcount (with_obj_refs (decref t (obj_refs w')) w') p =
              refcount (with_obj_refs (decref t (obj_refs (mem L))) (mem L)) p)
        as -> by (unfold refcount; simpl; by rewrite Hr).
      rewrite refcount_decref, (Hb p). simpl. rewrite Ht, Hc.
      rewrite (bool_decide_ext _ _ (Hm p)). case_decide as Hp.
      - subst. rewrite bool_decide_eq_true_2 by done.
        rewrite bool_decide_eq_false_2 by tauto. lia.
      - f_equal.
        apply f_equal with (f := λ b : bool, if b then 1%nat else 0%nat).
        apply bool_decide_ext. tauto. }
    destruct (selected (tag_mem (mem L) t)); simpl; apply Hgen; try done.
    + intros p. simpl. destruct (decide (p = t)) as [->|].
      * by rewrite !fn_lookup_alter.
      * by rewrite !fn_lookup_alter_ne.
    + intros p. simpl. destruct (decide (p = t)) as [->|].
      * by rewrite !fn_lookup_alter.
      * by rewrite !fn_lookup_alter_ne.
  - destruct (Bool.eqb _ _); [done|]. simpl. intros p.
    change (refcount (with_tag_mem ?m ?w') p) with (refcount w' p).
    rewrite (Hb p). simpl. destruct (decide (p = t)) as [->|].
    + by rewrite fn_lookup_alter.
    + by rewrite fn_lookup_alter_ne.
  - by apply balanced_tag_step.
  - by apply balanced_untag_step.
  - apply set_clients_outcome_invariant; [| |done].
    + intros. by apply balanced_tag_step.
    + intros. by apply balanced_untag_step.
Qed.

Lemma balanced_state0 scr scrs : balanced (mem (state0 scr scrs)).
Proof. by intros p. Qed.

Lemma reachable_invariants os scr scrs :
  I1 (exec_all os (state0 scr scrs)) ∧ I2 (exec_all os (state0 scr scrs)) ∧
  balanced (mem (exec_all os (state0 scr scrs))).
Proof.
  assert (∀ L, I2 L ∧ balanced (mem L) →
               I2 (exec_all os L) ∧ balanced (mem (exec_all os L))) as H.
  { induction os as [|o os IH]; intros L [H2 Hb]; [done|].
    simpl. apply IH. split; [by apply I2_exec | by apply balanced_exec]. }
  split; [apply I1_exec_all, I1_state0|].
  apply H. split; [apply I2_state0 | apply balanced_state0].
Qed.

(** X1.  In every state reached from the initial one, a tag holds exactly
    one strong reference per client in its array, plus one while it is
    activated: a deactivated tag without clients holds none. *)
Theorem X1_references_balanced (os : list op) (scr : ptr → ptr)
    (scrs : list ptr) (t : ptr) :
  let L := exec_all os (state0 scr scrs) in
  refcount (mem L) t =
    (length (clients (tag_of L t)) +
     (if activated (tag_of L t) then 1 else 0))%nat.
Proof.
  intros L. subst L.
  destruct (reachable_invariants os scr scrs) as (_ & [_ Hiff] & Hb).
  rewrite (Hb t). unfold tag_of. f_equal.
  specialize (Hiff t). unfold registry, tag_of in Hiff.
  destruct (activated (tag_mem (mem (exec_all os (state0 scr scrs))) t)).
  - rewrite bool_decide_eq_true_2; [done | by apply Hiff].
  - rewrite bool_decide_eq_false_2; [done|]. rewrite Hiff. done.
Qed.

(** X2.  In every state reached from the initial one the registry lists
    each activated tag exactly once and no other tag. *)
Theorem X2_registry_is_activated_set (os : list op) (scr : ptr → ptr)
    (scrs : list ptr) :
  let L := exec_all os (state0 scr scrs) in
  NoDup (registry L) ∧ ∀ t, t ∈ registry L ↔ activated (tag_of L t) = true.
Proof. intros L. apply (reachable_invariants os scr scrs). Qed.

(** ** Selection and activation *)

(** X3.  [set_selected(t, v)] does nothing when the flag already is [v].
    Otherwise it sets the flag, invalidates banning, recomputes the
    workarea of every screen of [globalconf.screens], each once and in
    array order, and then emits ":property.selected" on the tag, which is
    seen with the new flag; client arrays, reference counts and the
    registry stay as they are. *)
Theorem X3_set_selected_effects (t : ptr) (v : bool) (L : lua_State) :
  let L' := exec (SetSelected t v) L in
  (selected (tag_of L t) = v → L' = L) ∧
  (selected (tag_of L t) ≠ v →
   ∃ w',
     trace L' =
       trace L ++ Call_banning_need_update ::
         (Call_screen_update_workarea <$> screens (globalconf (mem L))) ++
         [Signal (tag_object t) ":property.selected" [] w'] ∧
     mem L' = w' ∧ selected (tag_mem w' t) = v ∧
     activated (tag_mem w' t) = activated (tag_of L t) ∧
     (∀ p, clients (tag_mem w' p) = clients (tag_of L p)) ∧
     (∀ p, p ≠ t → tag_mem w' p = tag_of L p) ∧
     obj_refs w' = obj_refs (mem L) ∧ globalconf w' = globalconf (mem L)).
Proof.
  intros L'. pose proof (exec_outcome (SetSelected t v) L) as Ho.
  pose proof (exec_stack (SetSelected t v) L) as Hs.
  fold L' in Ho, Hs. cbv beta iota zeta in Ho. unfold tag_of. split.
  - intros Hv. rewrite Hv, Bool.eqb_reflx in Ho.
    destruct L as [w s tr], L' as [w' s' tr']. simpl in *. congruence.
  - intros Hv.
    replace (Bool.eqb (selected (tag_mem (mem L) t)) v) with false in Ho
      by (destruct (selected (tag_mem (mem L) t)), v; done).
    injection Ho as Hm Ht. eexists. split; [exact Ht|]. rewrite Hm. simpl.
    split_and!; try done.
    + by rewrite fn_lookup_alter.
    + by rewrite fn_lookup_alter.
    + intros p. destruct (decide (p = t)) as [->|].
      * by rewrite fn_lookup_alter.
      * by rewrite fn_lookup_alter_ne.
    + intros p Hp. by rewrite fn_lookup_alter_ne.
Qed.

(** X4.  Activating a tag that is not activated puts it at the end of the
    registry, takes one strong reference on it and sets its flag; then the
    two EWMH desktop syncs are called and ":property.activated" is emitted
    last, on a memory in which the tag is already registered.  The other
    tags keep their place. *)
Theorem X4_activate_effects (t : ptr) (L : lua_State) :
  activated (tag_of L t) = false →
  let L' := exec (Activate t) L in
  registry L' = registry L ++ [t] ∧
  activated (tag_of L' t) = true ∧
  refcount (mem L') t = S (refcount (mem L) t) ∧
  (∀ p, p ≠ t → tag_of L' p = tag_of L p ∧
                refcount (mem L') p = refcount (mem L) p) ∧
  trace L' =
    trace L ++ [Call_ewmh_update_net_numbers_of_desktop;
                Call_ewmh_update_net_desktop_names;
                Signal (tag_object t) ":property.activated" [] (mem L')].
Proof.
  intros Ha L'. pose proof (exec_outcome (Activate t) L) as Ho.
  fold L' in Ho. cbv beta iota zeta in Ho. unfold tag_of in Ha. rewrite Ha in Ho.
  injection Ho as Hm Ht. unfold registry, tag_of. rewrite Ht, Hm.
  unfold activated_world at 1 2 3 4 5.
  change (refcount (with_tags ?ts (with_obj_refs ?r (with_tag_mem ?m ?w))) ?p)
    with (refcount (with_obj_refs r w) p).
  simpl. split_and!; try done.
  - by rewrite fn_lookup_alter.
  - rewrite refcount_incref. by rewrite decide_True.
  - intros p Hp. rewrite fn_lookup_alter_ne by done. split; [done|].
    change (refcount (with_tags ?ts (with_obj_refs ?r (with_tag_mem ?m ?w))) ?p)
      with (refcount (with_obj_refs r w) p).
    rewrite refcount_incref. by rewrite decide_False.
Qed.

Lemma filter_all_in (P : ptr → Prop) `{!∀ x, Decision (P x)} (l : list ptr) :
  Forall P l → filter P l = l.
Proof.
  induction 1 as [|x l Hx _ IH]; [done|].
  rewrite filter_cons_True by done. by f_equal.
Qed.

Lemma registry_without_filter t ts :
  NoDup ts → registry_without t ts = filter (λ p, p ≠ t) ts.
Proof.
  intros Hnd. unfold registry_without.
  destruct (array_scan t ts 0) as [i|] eqn:Hsc.
  - apply array_scan_inv in Hsc as (l1 & l2 & -> & Hl1 & ->). simpl.
    rewrite delete_middle, filter_app, filter_cons_False by (by intros ?).
    apply NoDup_app in Hnd as (_ & _ & [Hl2 _]%NoDup_cons).
    rewrite !filter_all_in; [done | |]; apply Forall_forall; congruence.
  - symmetry. apply filter_all_in, Forall_forall. intros p Hp ->.
    apply (array_scan_is_Some _ _ 0) in Hp as [i Hi]. congruence.
Qed.

(** X5.  Deactivating an activated tag takes it out of the registry and
    leaves the other tags in the order they had, in any state where the
    registry invariant holds; it releases one reference and clears both
    flags, whatever the selection was, and keeps the tag's clients. *)
Theorem X5_deactivate_effects (t : ptr) (L : lua_State) :
  I2 L → activated (tag_of L t) = true →
  let L' := exec (Deactivate t) L in
  registry L' = filter (λ p, p ≠ t) (registry L) ∧
  activated (tag_of L' t) = false ∧ selected (tag_of L' t) = false ∧
  clients (tag_of L' t) = clients (tag_of L t) ∧
  refcount (mem L') t = pred (refcount (mem L) t) ∧
  (∀ p, p ≠ t → tag_of L' p = tag_of L p ∧
                refcount (mem L') p = refcount (mem L) p).
Proof.
  intros [Hnd _] Ha L'. pose proof (exec_outcome (Deactivate t) L) as Ho.
  fold L' in Ho. cbv beta iota zeta in Ho. unfold tag_of in Ha. rewrite Ha in Ho.
  unfold registry, tag_of in *.
  assert (∀ w', obj_refs w' = obj_refs (mem L) →
            ∀ p, refcount (released_world t w') p =
                 if decide (p = t) then pred (refcount (mem L) p)
                 else refcount (mem L) p) as Hrc.
  { intros w' Hr p. unfold released_world.
    assert (refcount (with_obj_refs (decref t (obj_refs w')) w') p =
            refcount (with_obj_refs (decref t (obj_refs (mem L))) (mem L)) p)
      as -> by (unfold refcount; simpl; by rewrite Hr).
    apply refcount_decref. }
  destruct (selected (tag_mem (mem L) t)) eqn:Hs;
    injection Ho as Hm _; rewrite Hm; simpl;
    (split_and!; [by apply registry_without_filter | | | | |]).
  - by rewrite !fn_lookup_alter.
  - by rewrite !fn_lookup_alter.
  - by rewrite !fn_lookup_alter.
  - rewrite <- (decide_True (pred (refcount (mem L) t)) (refcount (mem L) t)
                  (eq_refl t)) at 1.
    by apply (Hrc (deselected_world t (removed_world t (mem L)))).
  - intros p Hp. rewrite !fn_lookup_alter_ne by done. split; [done|].
    rewrite <- (decide_False (pred (refcount (mem L) p)) (refcount (mem L) p) Hp).
    by apply (Hrc (deselected_world t (removed_world t (mem L)))).
  - by rewrite !fn_lookup_alter.
  - rewrite !fn_lookup_alter. simpl. by rewrite Hs.
  - by rewrite !fn_lookup_alter.
  - rewrite <- (decide_True (pred (refcount (mem L) t)) (refcount (mem L) t)
                  (eq_refl t)) at 1.
    by apply (Hrc (removed_world t (mem L))).
  - intros p Hp. rewrite !fn_lookup_alter_ne by done. split; [done|].
    rewrite <- (decide_False (pred (refcount (mem L) p)) (refcount (mem L) p) Hp).
    by apply (Hrc (removed_world t (mem L))).
Qed.

(** ** Single edges *)

Lemma signal_log_app tr1 tr2 :
  signal_log (tr1 ++ tr2) = signal_log tr1 ++ signal_log tr2.
Proof. apply omap_app. Qed.

(** X6.  Tagging a client that is not a member and untagging it again
    gives back every tag struct, the reference counts and [globalconf] as
    they were, and emits "tagged" on client and tag followed by "untagged"
    on client and tag.  The other way round, untagging a member and
    tagging it again moves it to the end of the array. *)
Theorem X6_tag_untag_round_trip (t c : ptr) (L : lua_State) :
  (c ∉ clients (tag_of L t) →
   let L' := exec (UntagClient c t) (exec (TagClient t c) L) in
   (∀ p, tag_of L' p = tag_of L p) ∧
   obj_refs (mem L') = obj_refs (mem L) ∧
   globalconf (mem L') = globalconf (mem L) ∧
   stack L' = stack L ∧
   signal_log (trace L') =
     signal_log (trace L) ++ edge_signals "tagged" t c ++
     edge_signals "untagged" t c) ∧
  (∀ l1 l2, clients (tag_of L t) = l1 ++ c :: l2 → c ∉ l1 → c ∉ l2 →
   clients (tag_of (exec (TagClient t c) (exec (UntagClient c t) L)) t) =
     l1 ++ l2 ++ [c]).
Proof.
  unfold tag_of. split.
  - intros Hc.
    pose proof (exec_outcome (TagClient t c) L) as H1.
    pose proof (exec_stack (TagClient t c) L) as Hs1.
    set (L1 := exec (TagClient t c) L) in *.
    pose proof (exec_outcome (UntagClient c t) L1) as H2.
    pose proof (exec_stack (UntagClient c t) L1) as Hs2.
    set (L2 := exec (UntagClient c t) L1) in *.
    cbv beta iota zeta in H1, H2. unfold tag_step in H1. simpl in H1.
    rewrite (proj2 (client_array_has_false _ _) Hc) in H1.
    injection H1 as Hm1 Ht1. unfold untag_step in H2. simpl in H2.
    rewrite Hm1, clients_tagged_world in H2.
    rewrite (array_scan_middle c _ []) in H2 by done.
    rewrite Nat.add_0_l in H2. injection H2 as Hm2 Ht2.
    rewrite Hm2, Ht2, Ht1. simpl. split_and!.
    + intros p. destruct (decide (p = t)) as [->|].
      * rewrite !fn_lookup_alter. simpl.
        rewrite (delete_middle _ [] c), app_nil_r.
        by destruct (tag_mem (mem L) t).
      * by rewrite !fn_lookup_alter_ne.
    + apply decref_incref.
    + done.
    + congruence.
    + rewrite !signal_log_app. simpl. by rewrite <- app_assoc.
  - intros l1 l2 Hcl Hl1 Hl2.
    pose proof (exec_outcome (UntagClient c t) L) as H1.
    set (L1 := exec (UntagClient c t) L) in *.
    pose proof (exec_outcome (TagClient t c) L1) as H2.
    set (L2 := exec (TagClient t c) L1) in *.
    cbv beta iota zeta in H1, H2. unfold untag_step in H1. simpl in H1.
    rewrite Hcl, array_scan_middle in H1 by done.
    injection H1 as Hm1 _. unfold tag_step in H2. simpl in H2.
    rewrite Hm1, clients_untagged_world, Hcl, delete_middle in H2.
    rewrite (proj2 (client_array_has_false c (l1 ++ l2))) in H2
      by (rewrite elem_of_app; tauto).
    injection H2 as Hm2 _. rewrite Hm2, clients_tagged_world.
    rewrite clients_untagged_world, Hcl, delete_middle.
    by rewrite <- app_assoc.
Qed.

(** X7.  [tag_client] takes the tag off the stack and leaves what is below
    it as it was, whether it adds the edge or finds it; [untag_client]
    leaves the stack as it found it.  With anything else than a tag on
    top, [tag_client] raises a type error before it touches memory or
    emits anything. *)
Theorem X7_stack_discipline (c : ptr) (L : lua_State) :
  (∀ t s, stack L = tag_object t :: s →
     ∃ L', tag_client c L = Done () L' ∧ stack L' = s) ∧
  (∀ t, ∃ L', untag_client c t L = Done () L' ∧ stack L' = stack L) ∧
  (∀ v s, stack L = v :: s → (∀ t, v ≠ tag_object t) →
     tag_client c L = Raise (TypeError (-1) "Tag") L) ∧
  (stack L = [] → tag_client c L = Raise (TypeError (-1) "Tag") L).
Proof.
  destruct L as [w s0 tr]. simpl. split_and!.
  - intros t s ->. rewrite tag_client_step. by eexists.
  - intros t. rewrite untag_client_step. by eexists.
  - intros v s -> Hv. unfold tag_client. mrun.
    destruct v as [| | | |cl p|]; try done.
    destruct (String.eqb_spec cl "Tag") as [->|]; [|done].
    by destruct (Hv p).
  - intros ->. done.
Qed.

(** X8.  After [tag_client(t, c)], [is_client_tagged(c, t)] answers true;
    after [untag_client(c, t)] in a state without duplicates it answers
    false.  Neither changes the answer for another client or another
    tag. *)
Theorem X8_membership_after_edge (t c : ptr) (L : lua_State) :
  client_array_has c (clients (tag_of (exec (TagClient t c) L) t)) = true ∧
  (I1 L →
   client_array_has c (clients (tag_of (exec (UntagClient c t) L) t)) = false) ∧
  (∀ c' t', (c', t') ≠ (c, t) →
     client_array_has c' (clients (tag_of (exec (TagClient t c) L) t')) =
       client_array_has c' (clients (tag_of L t')) ∧
     client_array_has c' (clients (tag_of (exec (UntagClient c t) L) t')) =
       client_array_has c' (clients (tag_of L t'))).
Proof.
  split_and!.
  - pose proof (exec_tag_of (TagClient t c) L t) as H. simpl in H.
    rewrite H, decide_True by done. simpl. unfold add_client.
    destruct (client_array_has c (clients (tag_of L t))) eqn:Hh; [done|].
    apply client_array_has_true, elem_of_app. right. left.
  - intros HI1. pose proof (exec_tag_of (UntagClient c t) L t) as H.
    simpl in H. rewrite H, decide_True by done. simpl.
    destruct (array_scan c _ 0) as [i|] eqn:Hsc.
    + apply array_scan_inv in Hsc as (l1 & l2 & Hcl & Hl1 & ->).
      specialize (HI1 t). rewrite Hcl in *. simpl. rewrite delete_middle.
      apply NoDup_app in HI1 as (_ & _ & [Hl2 _]%NoDup_cons).
      apply client_array_has_false. rewrite elem_of_app. tauto.
    + apply client_array_has_false. intros Hin.
      apply (array_scan_is_Some _ _ 0) in Hin as [i Hi]. congruence.
  - intros c' t' Hne.
    pose proof (exec_tag_of (TagClient t c) L t') as H1.
    pose proof (exec_tag_of (UntagClient c t) L t') as H2.
    simpl in H1, H2. rewrite H1, H2.
    destruct (decide (t' = t)) as [->|]; [|done].
    assert (c' ≠ c) as Hc by congruence. simpl. split.
    + unfold add_client.
      destruct (client_array_has c (clients (tag_of L t))); [done|].
      rewrite !client_array_has_spec. apply bool_decide_ext.
      rewrite elem_of_app, list_elem_of_singleton. tauto.
    + destruct (array_scan c _ 0) as [i|] eqn:Hsc; [|done].
      apply array_scan_inv in Hsc as (l1 & l2 & Hcl & Hl1 & ->).
      rewrite Hcl. simpl. rewrite delete_middle, !client_array_has_spec.
      apply bool_decide_ext. rewrite !elem_of_app, elem_of_cons. tauto.
Qed.

(** ** Batch reconciliation, step by step *)

Lemma tag_step_signals t s c :
  signal_log (tag_step t s c).2 =
    signal_log s.2 ++
    (if client_array_has c (clients (tag_mem s.1 t)) then []
     else edge_signals "tagged" t c).
Proof.
  unfold tag_step. destruct (client_array_has _ _).
  - by rewrite app_nil_r.
  - simpl. by rewrite signal_log_app.
Qed.

Lemma tag_step_clients t s c :
  clients (tag_mem (tag_step t s c).1 t) =
    add_client (clients (tag_mem s.1 t)) c.
Proof.
  unfold tag_step, add_client. destruct (client_array_has _ _); [done|].
  apply clients_tagged_world.
Qed.

Lemma foldl_tag_step_signals t rs :
  ∀ s, signal_log (foldl (tag_step t) s rs).2 =
         signal_log s.2 ++
         concat (edge_signals "tagged" t <$> newcomers (clients (tag_mem s.1 t)) rs).
Proof.
  induction rs as [|r rs IH]; intros s.
  - simpl. by rewrite app_nil_r.
  - simpl foldl. rewrite IH, tag_step_signals, tag_step_clients.
    unfold add_client. rewrite client_array_has_spec. simpl newcomers.
    case_bool_decide as Hr.
    + by rewrite app_nil_r.
    + rewrite fmap_cons. simpl concat. rewrite <- !app_assoc. f_equal.
      change (edge_signals "tagged" t r ++ ?l)
        with ((client_object r, "tagged"%string, [tag_object t]) ::
              (tag_object t, "tagged"%string, [client_object r]) :: l).
      do 4 f_equal.
      apply newcomers_agree. intros x _.
      rewrite elem_of_app, !elem_of_cons, elem_of_nil. tauto.
Qed.

Lemma foldl_tag_step_present t rs :
  ∀ s, Forall (λ r, r ∈ clients (tag_mem s.1 t)) rs →
       foldl (tag_step t) s rs = s.
Proof.
  induction rs as [|r rs IH]; intros s Hall; [done|].
  inversion Hall as [|?? Hr Hrs]; subst. simpl.
  assert (tag_step t s r = s) as ->; [|by apply IH].
  unfold tag_step. by rewrite (proj2 (client_array_has_true _ _) Hr).
Qed.

Lemma foldl_untag_step t ls :
  ∀ s, ls ⊆+ clients (tag_mem s.1 t) →
       signal_log (foldl (untag_step t) s ls).2 =
         signal_log s.2 ++ concat (edge_signals "untagged" t <$> ls) ∧
       ∀ x, x ∉ ls →
            x ∈ clients (tag_mem (foldl (untag_step t) s ls).1 t) ↔
            x ∈ clients (tag_mem s.1 t).
Proof.
  induction ls as [|c ls IH]; intros s Hsub.
  - simpl. by rewrite app_nil_r.
  - assert (c ∈ clients (tag_mem s.1 t)) as Hc
      by (eapply elem_of_submseteq; [left | done]).
    destruct (array_scan_is_Some c _ 0 Hc) as [i Hi].
    pose proof Hi as (l1 & l2 & Hcl & Hl1 & ->)%array_scan_inv.
    simpl foldl.
    assert (untag_step t s c =
            (untagged_world t (length l1) s.1,
             s.2 ++ [Call_banning_need_update;
                     Call_ewmh_client_update_desktop c;
                     Call_screen_update_workarea (client_screen s.1 c);
                     Signal (client_object c) "untagged" [tag_object t]
                       (taken_world t (length l1) s.1);
                     Signal (tag_object t) "untagged" [client_object c]
                       (taken_world t (length l1) s.1)])) as ->.
    { unfold untag_step. by rewrite Hi. }
    match goal with |- context [foldl _ ?s1 ls] => specialize (IH s1) end.
    simpl fst in IH. simpl snd in IH.
    rewrite clients_untagged_world, Hcl, delete_middle in IH.
    destruct IH as [IHs IHm].
    { rewrite Hcl in Hsub. rewrite <- Permutation_middle in Hsub.
      by apply (submseteq_app_inv_l _ _ [c]) in Hsub. }
    split.
    + rewrite IHs, signal_log_app, fmap_cons. simpl. by rewrite <- app_assoc.
    + intros x [Hxc Hx]%not_elem_of_cons. rewrite (IHm x Hx), Hcl.
      rewrite !elem_of_app, elem_of_cons. tauto.
Qed.

(** X9.  When every old member is in the request and every requested
    client is already a member, [t:clients(R)] changes nothing: no
    signal, no collaborator call, same memory, same stack; it returns the
    member list. *)
Theorem X9_set_clients_same_set (t : ptr) (rs : list ptr) (L : lua_State) :
  (∀ x, x ∈ rs ↔ x ∈ clients (tag_of L t)) →
  run (SetClients t (client_object <$> rs)) L =
    Done [VTable (client_object <$> clients (tag_of L t))] L.
Proof.
  intros Hset. pose proof (run_set_clients t (client_object <$> rs) L) as H.
  cbv zeta in H. unfold set_clients_outcome in H.
  rewrite valid_prefix_objects in H.
  rewrite decide_True in H by apply all_clients_objects. simpl fst in H.
  rewrite filter_all_out in H
    by (apply Forall_forall; intros x Hx; by apply Hset).
  simpl foldl in H.
  rewrite foldl_tag_step_present in H
    by (apply Forall_forall; intros x Hx; by apply Hset).
  simpl fst in H. simpl snd in H. unfold tag_of.
  destruct (run _ L) as [vs L'|e L'|]; [| |done].
  - destruct H as (_ & HL & Hvs). subst. by destruct L.
  - destruct H as (_ & Hn & _). destruct Hn. apply all_clients_objects.
Qed.

(** X10.  With a request made of clients, [t:clients(R)] emits "untagged"
    on client and tag for each old member that [R] does not list, in
    array order, and after all of these "tagged" on client and tag for
    each client of [R] that was not a member, in the order of its first
    mention; members that stay get no signal, and no other signal is
    emitted. *)
Theorem X10_set_clients_signals (t : ptr) (rs : list ptr) (L : lua_State) :
  let C := clients (tag_of L t) in
  signal_log (trace (exec (SetClients t (client_object <$> rs)) L)) =
    signal_log (trace L) ++
    concat (edge_signals "untagged" t <$> filter (λ c, c ∉ rs) C) ++
    concat (edge_signals "tagged" t <$> newcomers C rs).
Proof.
  intros C. subst C. rewrite exec_set_clients. simpl trace.
  unfold set_clients_outcome. rewrite valid_prefix_objects.
  rewrite decide_True by apply all_clients_objects. simpl fst. unfold tag_of.
  destruct (foldl_untag_step t (filter (λ c, c ∉ rs) (clients (tag_mem (mem L) t)))
              (mem L, trace L)) as [Hs Hm].
  { apply sublist_submseteq, sublist_filter. }
  rewrite foldl_tag_step_signals, Hs. simpl snd.
  rewrite <- app_assoc. do 4 f_equal.
  apply newcomers_agree. intros x Hx. apply Hm.
  rewrite list_elem_of_filter. tauto.
Qed.

(** X11.  Whatever the request table holds and however the call ends,
    [t:clients(R)] leaves [globalconf], the caller's stack, the name and
    flags of [t] and every other tag struct as they were, and the
    reference count of every other object too. *)
Theorem X11_set_clients_frame (t : ptr) (R : list lua_value) (L : lua_State) :
  let L' := exec (SetClients t R) L in
  globalconf (mem L') = globalconf (mem L) ∧
  client_screen (mem L') = client_screen (mem L) ∧
  stack L' = stack L ∧
  name (tag_of L' t) = name (tag_of L t) ∧
  selected (tag_of L' t) = selected (tag_of L t) ∧
  activated (tag_of L' t) = activated (tag_of L t) ∧
  (∀ p, p ≠ t → tag_of L' p = tag_of L p ∧
                refcount (mem L') p = refcount (mem L) p).
Proof.
  intros L'. subst L'. rewrite exec_set_clients. unfold tag_of. simpl.
  pose proof (set_clients_outcome_invariant
    (λ w', only_clients_of t (mem L) w' ∧
           ∀ p, p ≠ t → refcount w' p = refcount (mem L) p)
    t R (mem L, trace L)) as H.
  destruct H as [(Hg & Hs & Hm) Hr].
  - intros s c [Hfr Hrc]. unfold tag_step.
    destruct (client_array_has _ _); [done|]. simpl. split.
    + eapply only_clients_of_trans; [done | apply only_clients_of_tagged].
    + intros p Hp. unfold tagged_world.
      change (refcount (with_tag_mem ?m ?w') p) with (refcount w' p).
      rewrite refcount_incref, decide_False by done. by apply Hrc.
  - intros s c [Hfr Hrc]. unfold untag_step.
    destruct (array_scan _ _ _); [|done]. simpl. split.
    + eapply only_clients_of_trans; [done | apply only_clients_of_untagged].
    + intros p Hp. unfold untagged_world.
      change (refcount (with_obj_refs ?r (taken_world ?t' ?i ?w')) p)
        with (refcount (with_obj_refs r w') p).
      rewrite refcount_decref, decide_False by done. by apply Hrc.
  - split; [apply only_clients_of_refl | done].
  - split_and!; try done.
    + by rewrite (Hm t), decide_True.
    + by rewrite (Hm t), decide_True.
    + by rewrite (Hm t), decide_True.
    + intros p Hp. split; [|by apply Hr]. by rewrite (Hm p), decide_False.
Qed.

Lemma index2value_first a rest :
  index2value (rev (a :: rest)) 1 = Some a.
Proof. unfold index2value. simpl Z.ltb. cbv iota. by rewrite rev_involutive. Qed.

(** X12.  [luaA_tag_clients] honours the table only in a call with exactly
    two arguments.  A second argument that is not a table, [nil]
    included, is a type error raised before anything is changed; so is a
    first argument that is not a tag.  With three or more arguments the
    call is a plain query: whatever the second argument is, it is ignored,
    nothing is changed and the member list is returned. *)
Theorem X12_clients_argument_shapes (fuel : nat) (t : ptr) (L : lua_State) :
  (∀ v, (∀ items, v ≠ VTable items) →
     lua_call [tag_object t; v] (luaA_tag_clients fuel) L =
       Raise (TypeError 2 "table") L) ∧
  (∀ a rest, (∀ t', a ≠ tag_object t') →
     lua_call (a :: rest) (luaA_tag_clients fuel) L =
       Raise (TypeError 1 "Tag") L) ∧
  lua_call [] (luaA_tag_clients fuel) L = Raise (TypeError 1 "Tag") L ∧
  (∀ x y rest,
     lua_call (tag_object t :: x :: y :: rest) (luaA_tag_clients fuel) L =
       Done [VTable (client_object <$> clients (tag_of L t))] L).
Proof.
  destruct L as [w s tr]. unfold tag_of. split_and!.
  - intros v Hv. unfold lua_call, luaA_tag_clients. simpl rev.
    cbv delta [mbind M_bind] beta.
    change (luaC_checkuclass 1 "Tag" (mk_state w [v; tag_object t] tr))
      with (Done t (mk_state w [v; tag_object t] tr)).
    cbv beta iota. mrun. destruct v; try done. by destruct (Hv items).
  - intros a rest Ha. unfold lua_call, luaA_tag_clients.
    cbv delta [mbind M_bind luaC_checkuclass get_stack mret M_ret raise] beta.
    cbn [stack]. rewrite index2value_first.
    destruct a as [| | | |cl p|]; try done.
    destruct (String.eqb_spec cl "Tag") as [->|]; [|done].
    by destruct (Ha p).
  - done.
  - intros x y rest. unfold lua_call, luaA_tag_clients.
    cbv delta [mbind M_bind luaC_checkuclass get_stack mret M_ret raise
                 lua_gettop load_tag get_mem lua_createtable lua_push
                 set_stack] beta.
    cbn [stack]. rewrite index2value_first.
    unfold tag_object at 1. change ("Tag" =? "Tag")%string with true.
    cbv beta iota. cbn [stack mem trace].
    replace (Z.of_nat (length (rev (tag_object t :: x :: y :: rest))) =? 2)
      with false
      by (symmetry; apply Z.eqb_neq; rewrite length_rev; simpl; lia).
    cbv beta iota. cbn [stack mem trace].
    rewrite (push_clients_spec _ []). cbv beta iota. cbn [stack mem trace].
    done.
Qed.

(** ** Accessors: errors and round trips *)

(** X13.  A property setter called with an object that is not a tag or a
    value that is not a boolean raises a type error and leaves the whole
    state as it was; with a tag and a boolean it returns.  The setter of
    [activated] checks the object first, the setter of [selected] checks
    the value first, so with both arguments wrong they report different
    arguments. *)
Theorem X13_setter_type_errors (a b : lua_value) (L : lua_State) :
  let is_tag := ∃ t, a = tag_object t in
  let is_bool := ∃ v, b = VBoolean v in
  match lua_call [a; b] lunaL_setter_tag_activated L with
  | Done _ _ => is_tag ∧ is_bool
  | Raise e L' =>
      L' = L ∧
      (¬ is_tag ∧ e = TypeError 1 "Tag" ∨
       is_tag ∧ ¬ is_bool ∧ e = TypeError 2 "boolean")
  | OutOfFuel => False
  end ∧
  match lua_call [a; b] lunaL_setter_tag_selected L with
  | Done _ _ => is_tag ∧ is_bool
  | Raise e L' =>
      L' = L ∧
      (¬ is_bool ∧ e = TypeError 2 "boolean" ∨
       is_bool ∧ ¬ is_tag ∧ e = TypeError 1 "Tag")
  | OutOfFuel => False
  end.
Proof.
  intros is_tag is_bool. subst is_tag is_bool. destruct L as [w s tr].
  assert (∀ cl p, cl ≠ "Tag"%string → ¬ ∃ t, VUserdata cl p = tag_object t)
    as Hcl by (intros cl p Hne [t [= -> _]]; done).
  destruct a as [| | | |cl p|];
    try (split;
         [ unfold lua_call, lunaL_setter_tag_activated; mrun;
           split; [done | left; split; [by intros [? ?] | done]]
         | unfold lua_call, lunaL_setter_tag_selected, tag_view; mrun;
           destruct b; mrun;
           (split; [done|]);
           first [ right; split_and!; [by eexists | by intros [? ?] | done]
                 | left; split; [by intros [? ?] | done] ] ]).
  destruct (String.eqb_spec cl "Tag") as [->|Hne].
  - destruct b as [|v| | | |];
      try (split;
           [ unfold lua_call, lunaL_setter_tag_activated; mrun;
             split; [done | right; split_and!;
                            [by exists p | by intros [? ?] | done]]
           | unfold lua_call, lunaL_setter_tag_selected, tag_view; mrun;
             split; [done | left; split; [by intros [? ?] | done]] ]).
    split.
    + assert ((∃ t, VUserdata "Tag" p = tag_object t) ∧
              ∃ v0, VBoolean v = VBoolean v0) as Hok
        by (split; [by exists p | by exists v]).
      destruct v;
        [ change (lua_call [VUserdata "Tag" p; VBoolean true]
                    lunaL_setter_tag_activated) with (activate p)
        | change (lua_call [VUserdata "Tag" p; VBoolean false]
                    lunaL_setter_tag_activated) with (deactivate p) ];
        destruct (activated (tag_mem w p)) eqn:Ha,
          (selected (tag_mem w p)) eqn:Hs;
        rewrite ?activate_noop, ?activate_fresh, ?deactivate_noop,
          ?deactivate_selected, ?deactivate_unselected by done; done.
    + change (lua_call [VUserdata "Tag" p; VBoolean v]
                lunaL_setter_tag_selected)
        with (set_selected p v).
      destruct (Bool.eqb_spec (selected (tag_mem w p)) v) as [He|He].
      * rewrite set_selected_noop by done.
        split; [by exists p | by exists v].
      * rewrite set_selected_change
          by (destruct (selected (tag_mem w p)), v; done).
        split; [by exists p | by exists v].
  - split.
    + unfold lua_call, lunaL_setter_tag_activated. mrun.
      rewrite (proj2 (String.eqb_neq cl "Tag") Hne). mrun.
      split; [done | left; split; [by apply Hcl | done]].
    + unfold lua_call, lunaL_setter_tag_selected, tag_view. mrun.
      destruct b; mrun; rewrite ?(proj2 (String.eqb_neq cl "Tag") Hne); mrun;
        (split; [done|]);
        first [ right; split_and!; [by eexists | by apply Hcl | done]
              | left; split; [by intros [? ?] | done] ].
Qed.

(** X14.  Reading [selected] after setting it yields the value set and
    changes nothing. *)
Theorem X14_selected_round_trip (t : ptr) (v : bool) (L : lua_State) :
  get_selected t (exec (SetSelected t v) L) =
    Done [VBoolean v] (exec (SetSelected t v) L).
Proof.
  pose proof (exec_tag_of (SetSelected t v) L t) as H. simpl in H.
  rewrite decide_True in H by done.
  destruct (exec (SetSelected t v) L) as [w s tr].
  unfold get_selected, lua_call, lunaL_getter_tag_selected. mrun.
  unfold tag_of in H. simpl in H. by rewrite H.
Qed.

(** X15.  On a registry that is not empty,
    [tags_get_current_or_first_selected_index] returns a valid index of
    it; the sentinel 0 is out of range only for the empty registry. *)
Theorem X15_current_index_in_range (w : world) :
  tags (globalconf w) ≠ [] →
  0 ≤ tags_get_current_or_first_selected_index w <
    Z.of_nat (length (tags (globalconf w))).
Proof.
  intros Hne. unfold tags_get_current_or_first_selected_index.
  set (arr := tags (globalconf w)) in *.
  assert (0 ≤ 0 < Z.of_nat (length arr)) as H0
    by (destruct arr; [done | simpl; lia]).
  assert (∀ P i, first_index P arr i → 0 ≤ i < Z.of_nat (length arr)) as Hfi.
  { intros P i (Hi & t & Hl & _). apply lookup_lt_Some in Hl. lia. }
  pose proof (scan_selected_spec (tag_mem w) arr 0 ltac:(done)) as Hsel.
  assert (0 ≤ match scan_selected (tag_mem w) arr 0 with
              | Some i => i | None => 0 end < Z.of_nat (length arr)) as Hfb.
  { destruct (scan_selected _ _ _) as [i|]; [|done].
    rewrite Z.sub_0_r in Hsel. by eapply Hfi. }
  destruct (focus_client _) as [c|]; [|done].
  pose proof (scan_current_spec (tag_mem w) c arr 0 ltac:(done)) as Hcur.
  destruct (scan_current _ _ _ _) as [i|]; [|done].
  rewrite Z.sub_0_r in Hcur. by eapply Hfi.
Qed.


(** ** Collection *)

(** X17.  In a state reached from the initial one, a tag on which no strong
    reference is held (the only tags the collector may finalise) has no
    client and is not in the registry; its finaliser [lunaL_tag_gc]
    therefore drops no membership edge: it only clears the name, and emits
    nothing. *)
Theorem X17_gc_drops_no_edge (os : list op) (scr : ptr → ptr)
    (scrs : list ptr) (t : ptr) :
  let L := exec_all os (state0 scr scrs) in
  refcount (mem L) t = 0%nat →
  clients (tag_of L t) = [] ∧ activated (tag_of L t) = false ∧
  (t ∉ registry L) ∧
  ∃ L', lunaL_tag_gc t L = Done () L' ∧
    tag_of L' t = with_name None (tag_of L t) ∧
    (∀ q, q ≠ t → tag_of L' q = tag_of L q) ∧
    obj_refs (mem L') = obj_refs (mem L) ∧
    globalconf (mem L') = globalconf (mem L) ∧
    stack L' = stack L ∧ trace L' = trace L.
Proof.
  intros L Hr. subst L.
  destruct (reachable_invariants os scr scrs) as (_ & [_ Hiff] & Hb).
  set (L := exec_all os (state0 scr scrs)) in *.
  rewrite (Hb t) in Hr.
  assert (clients (tag_of L t) = []) as Hc.
  { unfold tag_of. destruct (clients (tag_mem (mem L) t)); [done|].
    simpl in Hr. lia. }
  assert (t ∉ registry L) as Hreg.
  { intros Hin. unfold registry in Hin.
    rewrite bool_decide_eq_true_2 in Hr by done. lia. }
  split_and!; [done| |done|].
  - destruct (activated (tag_of L t)) eqn:Ha; [|done].
    by apply Hiff in Ha.
  - destruct L as [w s tr]. unfold tag_of in *. simpl in *.
    eexists. split; [unfold lunaL_tag_gc; mrun; reflexivity|].
    simpl. rewrite !fn_lookup_alter.
    split_and!; try done.
    + destruct (tag_mem w t) as [n se ac cs]. simpl in Hc. by subst cs.
    + intros q Hq. by rewrite !fn_lookup_alter_ne.
Qed.

(** ** Instances of the further properties *)

Lemma X3_witness :
  exec (SetSelected 1%N true) demo_state = demo_state ∧
  ∃ w', mem (exec (SetSelected 1%N false) demo_state) = w' ∧
        selected (tag_mem w' 1%N) = false.
Proof.
  split.
  - apply (proj1 (X3_set_selected_effects 1%N true demo_state)).
    reflexivity.
  - destruct (proj2 (X3_set_selected_effects 1%N false demo_state))
      as (w' & _ & Hm & Hs & _).
    + vm_compute. discriminate.
    + exists w'. split; [exact Hm | exact Hs].
Defined.

Lemma X4_witness :
  registry (exec (Activate 2%N) demo_state) = registry demo_state ++ [2%N] ∧
  refcount (mem (exec (Activate 2%N) demo_state)) 2%N =
    S (refcount (mem demo_state) 2%N).
Proof.
  destruct (X4_activate_effects 2%N demo_state) as (Hreg & _ & Hr & _).
  - reflexivity.
  - split; [exact Hreg | exact Hr].
Defined.

Lemma X5_witness :
  registry (exec (Deactivate 1%N) demo_state) =
    filter (λ p, p ≠ 1%N) (registry demo_state) ∧
  refcount (mem (exec (Deactivate 1%N) demo_state)) 1%N =
    pred (refcount (mem demo_state) 1%N).
Proof.
  destruct (X5_deactivate_effects 1%N demo_state)
    as (Hreg & _ & _ & _ & Hr & _).
  - apply I2_exec_all, I2_state0.
  - reflexivity.
  - split; [exact Hreg | exact Hr].
Defined.

Lemma X6_witness :
  (∀ p, tag_of (exec (UntagClient 13%N 1%N)
                  (exec (TagClient 1%N 13%N) demo_state)) p =
        tag_of demo_state p) ∧
  clients (tag_of (exec (TagClient 1%N 11%N)
                     (exec (UntagClient 11%N 1%N) demo_state)) 1%N) =
    [] ++ [12%N] ++ [11%N].
Proof.
  split.
  - apply (proj1 (X6_tag_untag_round_trip 1%N 13%N demo_state)).
    apply (bool_decide_unpack _). vm_compute. exact I.
  - apply (proj2 (X6_tag_untag_round_trip 1%N 11%N demo_state) [] [12%N]).
    + reflexivity.
    + apply not_elem_of_nil.
    + apply (bool_decide_unpack _). vm_compute. exact I.
Defined.

Lemma X7_witness :
  (∃ L', tag_client 13%N (mk_state (mem demo_state) [tag_object 1%N] [])
           = Done () L' ∧ stack L' = []) ∧
  tag_client 13%N (mk_state (mem demo_state) [VNil] []) =
    Raise (TypeError (-1) "Tag") (mk_state (mem demo_state) [VNil] []) ∧
  tag_client 13%N (mk_state (mem demo_state) [] []) =
    Raise (TypeError (-1) "Tag") (mk_state (mem demo_state) [] []).
Proof.
  split_and!.
  - apply (proj1 (X7_stack_discipline 13%N
                    (mk_state (mem demo_state) [tag_object 1%N] []))
             1%N []).
    reflexivity.
  - apply (proj1 (proj2 (proj2 (X7_stack_discipline 13%N
                    (mk_state (mem demo_state) [VNil] [])))) VNil []).
    + reflexivity.
    + intros t. discriminate.
  - apply (proj2 (proj2 (proj2 (X7_stack_discipline 13%N
                    (mk_state (mem demo_state) [] []))))).
    reflexivity.
Defined.

Lemma X8_witness :
  client_array_has 11%N
    (clients (tag_of (exec (UntagClient 11%N 1%N) demo_state) 1%N)) = false ∧
  client_array_has 12%N
    (clients (tag_of (exec (UntagClient 11%N 1%N) demo_state) 1%N)) =
    client_array_has 12%N (clients (tag_of demo_state 1%N)).
Proof.
  split.
  - apply (proj1 (proj2 (X8_membership_after_edge 1%N 11%N demo_state))).
    apply I1_exec_all. intros t. constructor.
  - apply (proj2 (proj2 (X8_membership_after_edge 1%N 11%N demo_state))
             12%N 1%N).
    discriminate.
Defined.

Lemma X9_witness :
  run (SetClients 1%N (client_object <$> [12%N; 11%N; 12%N])) demo_state =
    Done [VTable (client_object <$> clients (tag_of demo_state 1%N))]
      demo_state.
Proof.
  apply X9_set_clients_same_set.
  change (∀ x : ptr, x ∈ [12%N; 11%N; 12%N] ↔ x ∈ [11%N; 12%N]).
  intros x. rewrite !elem_of_cons, elem_of_nil. tauto.
Defined.

Lemma X12_witness :
  lua_call [tag_object 1%N; VNil] (luaA_tag_clients 6) demo_state =
    Raise (TypeError 2 "table") demo_state ∧
  lua_call [VNumber 3; VTable []] (luaA_tag_clients 6) demo_state =
    Raise (TypeError 1 "Tag") demo_state.
Proof.
  split.
  - apply (proj1 (X12_clients_argument_shapes 6 1%N demo_state) VNil).
    intros items. discriminate.
  - apply (proj1 (proj2 (X12_clients_argument_shapes 6 1%N demo_state))
             (VNumber 3) [VTable []]).
    intros t'. discriminate.
Defined.

Lemma X15_witness :
  0 ≤ tags_get_current_or_first_selected_index (demo_focus None) <
    Z.of_nat (length (tags (globalconf (demo_focus None)))).
Proof.
  apply X15_current_index_in_range. discriminate.
Defined.

Lemma X17_witness :
  clients (tag_of demo_state 2%N) = [] ∧
  activated (tag_of demo_state 2%N) = false ∧
  (2%N ∉ registry demo_state).
Proof.
  destruct (X17_gc_drops_no_edge
              [Activate 1%N; TagClient 1%N 11%N; TagClient 1%N 12%N;
               SetSelected 1%N true] (λ _, 5%N) [5%N; 6%N] 2%N)
    as (Hc & Ha & Hreg & _).
  - reflexivity.
  - split_and!; [exact Hc | exact Ha | exact Hreg].
Defined.
